(** * N-body simulation engine of the ComputeCpp SDK demos

    A shallow embedding of [demos/include/double_buf.hpp] and
    [demos/nbody/sim.hpp].  The scalar type [num_t] of the template is
    modelled by the exact reals [R]; [sycl::vec<num_t, 3>] by a record of
    three reals; device buffers and host accessors by lists updated by
    index (stdpp's [<[i:=x]>]). *)

From Stdlib Require Import Reals Lra Psatz ZArith.
From stdpp Require Import base list.

Open Scope R_scope.

(** ** sycl::vec<num_t, 3> *)

Record vec3 := mkvec3 { vx : R; vy : R; vz : R }.

(** [vec3<num_t> acc(0)]: every component set to the scalar. *)
Definition vec3_splat (a : R) : vec3 := mkvec3 a a a.

Definition vadd (a b : vec3) : vec3 :=
  mkvec3 (vx a + vx b) (vy a + vy b) (vz a + vz b).

Definition vsub (a b : vec3) : vec3 :=
  mkvec3 (vx a - vx b) (vy a - vy b) (vz a - vz b).

(** scalar [*] vector *)
Definition vscale (k : R) (a : vec3) : vec3 :=
  mkvec3 (k * vx a) (k * vy a) (k * vz a).

(** vector [*] scalar, as in [v *= k] *)
Definition vmul (a : vec3) (k : R) : vec3 :=
  mkvec3 (vx a * k) (vy a * k) (vz a * k).

(** vector [/] scalar *)
Definition vdiv (a : vec3) (k : R) : vec3 :=
  mkvec3 (vx a / k) (vy a / k) (vz a / k).

(** [sycl::pow(x, y)] for a real exponent.  For [x > 0] it is [x^y]; at
    [x = 0] the device function returns 0 for [y > 0] and +inf for [y < 0],
    and for [x < 0] it returns NaN: the exact-real model maps every
    non-positive base to 0, as real division by zero does in [R]. *)
Definition sycl_pow (x y : R) : R :=
  if Rlt_dec 0 x then Rpower x y else 0.

(** ** double_buf.hpp *)

Module double_buf.

Inductive Buffer := USE_A | USE_B.

(** [Buffer::USE_A -> read a, write b; Buffer::USE_B -> read b, write a] *)
Record DoubleBuf (T : Type) := mkDoubleBuf {
  buffer : Buffer;
  m_a : T;
  m_b : T
}.
Arguments mkDoubleBuf {T} _ _ _.
Arguments buffer {T} _.
Arguments m_a {T} _.
Arguments m_b {T} _.

(** The constructor forwards the same arguments to both members; [mk]
    stands for [T(vals...)]. *)
Definition DoubleBuf_ctor {T} (mk : T) : DoubleBuf T :=
  mkDoubleBuf USE_A mk mk.

Definition swap {T} (db : DoubleBuf T) : DoubleBuf T :=
  match buffer db with
  | USE_A => mkDoubleBuf USE_B (m_a db) (m_b db)
  | USE_B => mkDoubleBuf USE_A (m_a db) (m_b db)
  end.

(** Identity of the member a reference returned by [read()]/[write()]
    designates. *)
Inductive member := MEMBER_A | MEMBER_B.

Definition read_member {T} (db : DoubleBuf T) : member :=
  match buffer db with USE_A => MEMBER_A | USE_B => MEMBER_B end.

Definition write_member {T} (db : DoubleBuf T) : member :=
  match buffer db with USE_A => MEMBER_B | USE_B => MEMBER_A end.

Definition read {T} (db : DoubleBuf T) : T :=
  match buffer db with USE_A => m_a db | USE_B => m_b db end.

Definition write {T} (db : DoubleBuf T) : T :=
  match buffer db with USE_A => m_b db | USE_B => m_a db end.

(** Storing through the reference returned by [write()]. *)
Definition set_write {T} (db : DoubleBuf T) (x : T) : DoubleBuf T :=
  match buffer db with
  | USE_A => mkDoubleBuf USE_A (m_a db) x
  | USE_B => mkDoubleBuf USE_B x (m_b db)
  end.

End double_buf.

Import double_buf.

(** ** Body storage: [SyclBufs<vec3<num_t>, vec3<num_t>>] = (velocity, position) *)

Record SyclBufs := mkSyclBufs { bvel : list vec3; bpos : list vec3 }.

(** [SyclBufs(n)]: two buffers of [n] elements.  The device buffers are
    created without host data; their initial content is modelled as zero
    vectors. *)
Definition SyclBufs_ctor (n : nat) : SyclBufs :=
  mkSyclBufs (replicate n (vec3_splat 0)) (replicate n (vec3_splat 0)).

(** [std::get<0>(accs)[i] = v] *)
Definition set_vel (i : nat) (v : vec3) (b : SyclBufs) : SyclBufs :=
  mkSyclBufs (<[i:=v]> (bvel b)) (bpos b).

(** [std::get<1>(accs)[i] = p] *)
Definition set_pos (i : nat) (p : vec3) (b : SyclBufs) : SyclBufs :=
  mkSyclBufs (bvel b) (<[i:=p]> (bpos b)).

(** [std::get<0>(accs)[i] *= k] *)
Definition vel_mul_assign (i : nat) (k : R) (b : SyclBufs) : SyclBufs :=
  match bvel b !! i with
  | Some v => set_vel i (vmul v k) b
  | None => b
  end.

(** ** Random numbers

    [std::mt19937] seeded from [std::random_device] is modelled as the
    stream of canonical draws [generate_canonical] makes of it: the k-th
    call of a [uniform_real_distribution] consumes the k-th value of the
    stream.  The stream is an argument of the constructors. *)

Definition rng := nat -> R.

Definition draw (g : rng) : R * rng := (g 0%nat, fun k => g (S k)).

Record uniform_real_distribution := mkunif { unif_a : R; unif_b : R }.

(** libstdc++: [(__aurng() * (b - a)) + a] *)
Definition unif_call (d : uniform_real_distribution) (g : rng) : R * rng :=
  let (u, g') := draw g in (u * (unif_b d - unif_a d) + unif_a d, g').

(** ** Parameters and selections *)

Record distrib_cylinder := mkcyl {
  radius : R * R;   (* (x, y) = (rmin, rmax) *)
  angle : R * R;
  height : R * R;
  speed : R
}.

Record distrib_sphere := mksph { sph_radius : R * R }.

Inductive force_t := GRAVITY | LENNARD_JONES.

Inductive integrator_t := EULER | RK4.

Record grav_params_t := mkgrav { G : R; damping : R }.

Record lj_params_t := mklj { eps : R; sigma : R }.

(** ** The engine state.  [m_integrator] is not initialised by any
    constructor: [None] models that indeterminate value. *)

Record GravSim := mkGravSim {
  m_bufs : DoubleBuf SyclBufs;
  m_n_bodies : nat;
  m_time : R;
  m_force : force_t;
  m_grav_params : grav_params_t;
  m_lj_params : lj_params_t;
  m_integrator : option integrator_t
}.

Definition STEP_SIZE : R := 1 / 2.

(** [num_t(1e24)] *)
Definition HUGE_1e24 : R := 10 ^ 24.

(** Base constructor [GravSim(size_t)], with the default member
    initialisers [G = 1e-5], [damping = 1e-5], [eps = 1], [sigma = 1e-3]. *)
Definition GravSim_base (n_bodies : nat) : GravSim :=
  mkGravSim (DoubleBuf_ctor (SyclBufs_ctor n_bodies)) n_bodies 0 GRAVITY
    (mkgrav (1 / 100000) (1 / 100000)) (mklj 1 (1 / 1000)) None.

(** ** Cylinder constructor [GravSim(size_t, distrib_cylinder<num_t>)]

    One iteration of the loop, for body [i]: draw [r], draw [phi], write
    the velocity, scale it, then draw the height inside the position
    initialiser. *)
Fixpoint cyl_loop (params : distrib_cylinder)
    (unifr unifp unify : uniform_real_distribution)
    (cnt i : nat) (g : rng) (accs : SyclBufs) : SyclBufs * rng :=
  match cnt with
  | O => (accs, g)
  | S c =>
      let (u, g1) := unif_call unifr g in
      let r := sqrt u in
      let (phi, g2) := unif_call unifp g1 in
      let accs1 := set_vel i (mkvec3 (- r * sin phi) 0 (r * cos phi)) accs in
      let accs2 := vel_mul_assign i (speed params / snd (radius params)) accs1 in
      let (y, g3) := unif_call unify g2 in
      let accs3 := set_pos i (mkvec3 (r * cos phi) y (r * sin phi)) accs2 in
      cyl_loop params unifr unifp unify c (S i) g3 accs3
  end.

Definition GravSim_cylinder (n_bodies : nat) (params : distrib_cylinder)
    (g : rng) : GravSim :=
  let s := GravSim_base n_bodies in
  let rmin := fst (radius params) in
  let rmax := snd (radius params) in
  let unifr := mkunif (rmin * rmin) (rmax * rmax) in
  let unifp := mkunif (fst (angle params)) (snd (angle params)) in
  let unify := mkunif (fst (height params)) (snd (height params)) in
  let accs := fst (cyl_loop params unifr unifp unify (m_n_bodies s) 0 g
                     (write (m_bufs s))) in
  mkGravSim (swap (set_write (m_bufs s) accs)) (m_n_bodies s) 0
    (m_force s) (m_grav_params s) (m_lj_params s) (m_integrator s).

(** ** Sphere constructor [GravSim(size_t, distrib_sphere<num_t>)] *)

Definition PI_f : R := 3141592 / 1000000.

Fixpoint sph_loop (unifp unifcost unifu : uniform_real_distribution)
    (cnt i : nat) (g : rng) (accs : SyclBufs) : SyclBufs * rng :=
  match cnt with
  | O => (accs, g)
  | S c =>
      let (u, g1) := unif_call unifu g in
      let r := sycl_pow u (1 / 3) in
      let (cost, g2) := unif_call unifcost g1 in
      let sint := sqrt (1 - cost * cost) in
      let (phi, g3) := unif_call unifp g2 in
      let x := r * sint * cos phi in
      let y := r * sint * sin phi in
      let z := r * cost in
      let accs1 := set_vel i (mkvec3 0 0 0) accs in
      let accs2 := set_pos i (mkvec3 x y z) accs1 in
      sph_loop unifp unifcost unifu c (S i) g3 accs2
  end.

Definition GravSim_sphere (n_bodies : nat) (params : distrib_sphere)
    (g : rng) : GravSim :=
  let s := GravSim_base n_bodies in
  let unifp := mkunif 0 (2 * PI_f) in
  let unifcost := mkunif (-1) 1 in
  let rmin := fst (sph_radius params) in
  let rmax := snd (sph_radius params) in
  let unifu := mkunif (rmin * rmin * rmin) (rmax * rmax * rmax) in
  let accs := fst (sph_loop unifp unifcost unifu (m_n_bodies s) 0 g
                     (write (m_bufs s))) in
  mkGravSim (swap (set_write (m_bufs s) accs)) (m_n_bodies s) 0
    (m_force s) (m_grav_params s) (m_lj_params s) (m_integrator s).

(** ** Force closures of [internal_step]

    Both take [(vel, x, t)] and ignore [vel] and [t]; [pos] is the read
    accessor of positions, [id] the linear id of the work item. *)

Definition force_fn := vec3 -> vec3 -> R -> vec3.

Definition indicator (b : bool) : R := if b then 1 else 0.

Definition norm_of (d : vec3) : R :=
  sqrt (vx d * vx d + vy d * vy d + vz d * vz d).

(** [for (size_t i = 0; i < n_bodies; i++) acc += diff / (r*r*r + 1e24*(i == id) + damping)] *)
Fixpoint grav_loop (pos : list vec3) (id : nat) (damping : R) (x : vec3)
    (i cnt : nat) (acc : vec3) : vec3 :=
  match cnt with
  | O => acc
  | S c =>
      let diff := vsub (nth i pos (vec3_splat 0)) x in
      let r := norm_of diff in
      grav_loop pos id damping x (S i) c
        (vadd acc (vdiv diff (r * r * r + HUGE_1e24 * indicator (i =? id)%nat
                              + damping)))
  end.

Definition grav (pos : list vec3) (n_bodies id : nat) (G damping : R) : force_fn :=
  fun _ x _ => vscale G (grav_loop pos id damping x 0 n_bodies (vec3_splat 0)).

(** [acc += pow(r, -8) * diff - 2 * pow(r, -14) * diff] *)
Fixpoint lj_loop (pos : list vec3) (id : nat) (x : vec3)
    (i cnt : nat) (acc : vec3) : vec3 :=
  match cnt with
  | O => acc
  | S c =>
      let diff := vsub (nth i pos (vec3_splat 0)) x in
      let r := norm_of diff + HUGE_1e24 * indicator (i =? id)%nat in
      lj_loop pos id x (S i) c
        (vadd acc (vsub (vscale (sycl_pow r (-8)) diff)
                        (vscale (2 * sycl_pow r (-14)) diff)))
  end.

Definition lj_force (pos : list vec3) (n_bodies id : nat) (A : R) : force_fn :=
  fun _ x _ => vscale A (lj_loop pos id x 0 n_bodies (vec3_splat 0)).

(** ** Integrators *)

(** Modelled from the spec: [integrate_step_euler] of [integrator.hpp],
    which is not part of the sources; spec 4.4 fixes the semi-implicit
    Euler step [v1 = v0 + dt f(v0,p0,t0)], [p1 = p0 + dt v1],
    [t1 = t0 + dt]. *)
Definition integrate_step_euler (f : force_fn) (dt : R) (v0 p0 : vec3) (t0 : R)
    : vec3 * vec3 * R :=
  let v1 := vadd v0 (vscale dt (f v0 p0 t0)) in
  let p1 := vadd p0 (vscale dt v1) in
  (v1, p1, t0 + dt).

(** Modelled from the spec: [integrate_step_rk4] of [integrator.hpp],
    which is not part of the sources; spec 4.4 describes the classical
    fourth-order Runge-Kutta step of [dv/dt = f(v,p,t)], [dp/dt = v]. *)
Definition integrate_step_rk4 (f : force_fn) (dt : R) (v0 p0 : vec3) (t0 : R)
    : vec3 * vec3 * R :=
  let h := dt / 2 in
  let k1v := f v0 p0 t0 in
  let k1p := v0 in
  let k2v := f (vadd v0 (vscale h k1v)) (vadd p0 (vscale h k1p)) (t0 + h) in
  let k2p := vadd v0 (vscale h k1v) in
  let k3v := f (vadd v0 (vscale h k2v)) (vadd p0 (vscale h k2p)) (t0 + h) in
  let k3p := vadd v0 (vscale h k2v) in
  let k4v := f (vadd v0 (vscale dt k3v)) (vadd p0 (vscale dt k3p)) (t0 + dt) in
  let k4p := vadd v0 (vscale dt k3v) in
  let comb a b c d := vadd (vadd (vadd a (vscale 2 b)) (vscale 2 c)) d in
  (vadd v0 (vscale (dt / 6) (comb k1v k2v k3v k4v)),
   vadd p0 (vscale (dt / 6) (comb k1p k2p k3p k4p)),
   t0 + dt).

(** ** [internal_step] *)

(** The assignment [std::tie(wvel[id], wpos[id], std::ignore) = ...] of the
    selected integrator; an integrator value other than [EULER] and [RK4]
    writes nothing. *)
Definition kernel_body (force : nat -> force_fn) (integrator : option integrator_t)
    (reads : SyclBufs) (t : R) (id : nat) (writes : SyclBufs) : SyclBufs :=
  let v0 := nth id (bvel reads) (vec3_splat 0) in
  let p0 := nth id (bpos reads) (vec3_splat 0) in
  match integrator with
  | Some EULER =>
      let '(v1, p1, _) := integrate_step_euler (force id) STEP_SIZE v0 p0 t in
      set_pos id p1 (set_vel id v1 writes)
  | Some RK4 =>
      let '(v1, p1, _) := integrate_step_rk4 (force id) STEP_SIZE v0 p0 t in
      set_pos id p1 (set_vel id v1 writes)
  | None => writes
  end.

(** [parallel_for(range<1>(n), kernel)]: the work items write disjoint
    indices and read only the read generation, so they are run here in
    index order. *)
Fixpoint parallel_for (n : nat) (body : nat -> SyclBufs -> SyclBufs)
    (w : SyclBufs) : SyclBufs :=
  match n with
  | O => w
  | S k => body k (parallel_for k body w)
  end.

(** The [switch (m_force)] of [internal_step]: the force closure handed
    to the integrator of work item [id]. *)
Definition select_force (force : force_t) (gp : grav_params_t) (lp : lj_params_t)
    (pos : list vec3) (n_bodies : nat) : nat -> force_fn :=
  match force with
  | GRAVITY =>
      let G := G gp in
      let damping := damping gp in
      fun id => grav pos n_bodies id G damping
  | LENNARD_JONES =>
      let eps := eps lp in
      let sigma := sigma lp in
      let A := 24 * eps * sigma in
      fun id => lj_force pos n_bodies id A
  end.

Definition internal_step (s : GravSim) : GravSim :=
  let reads := read (m_bufs s) in
  let writes := write (m_bufs s) in
  let t := m_time s in
  let n_bodies := m_n_bodies s in
  let integrator := m_integrator s in
  let force := select_force (m_force s) (m_grav_params s) (m_lj_params s)
                 (bpos reads) n_bodies in
  let writes' := parallel_for n_bodies (kernel_body force integrator reads t) writes in
  mkGravSim (swap (set_write (m_bufs s) writes')) (m_n_bodies s)
    (m_time s + STEP_SIZE) (m_force s) (m_grav_params s) (m_lj_params s)
    (m_integrator s).

(** Modelled from the spec: [GravSim::step()] is declared in [sim.hpp] and
    defined outside the sources; spec 4.5 describes it as one round of the
    per-body update, one swap and one advance of the time, which is
    [internal_step]. *)
Definition step (s : GravSim) : GravSim := internal_step s.

(** ** Setters *)

Definition set_force_type (force : force_t) (s : GravSim) : GravSim :=
  mkGravSim (m_bufs s) (m_n_bodies s) (m_time s) force
    (m_grav_params s) (m_lj_params s) (m_integrator s).

Definition set_integrator (integrator : integrator_t) (s : GravSim) : GravSim :=
  mkGravSim (m_bufs s) (m_n_bodies s) (m_time s) (m_force s)
    (m_grav_params s) (m_lj_params s) (Some integrator).

Definition set_grav_damping (d : R) (s : GravSim) : GravSim :=
  mkGravSim (m_bufs s) (m_n_bodies s) (m_time s) (m_force s)
    (mkgrav (G (m_grav_params s)) d) (m_lj_params s) (m_integrator s).

Definition set_grav_G (g : R) (s : GravSim) : GravSim :=
  mkGravSim (m_bufs s) (m_n_bodies s) (m_time s) (m_force s)
    (mkgrav g (damping (m_grav_params s))) (m_lj_params s) (m_integrator s).

Definition set_lj_eps (e : R) (s : GravSim) : GravSim :=
  mkGravSim (m_bufs s) (m_n_bodies s) (m_time s) (m_force s)
    (m_grav_params s) (mklj e (sigma (m_lj_params s))) (m_integrator s).

Definition set_lj_sigma (sg : R) (s : GravSim) : GravSim :=
  mkGravSim (m_bufs s) (m_n_bodies s) (m_time s) (m_force s)
    (m_grav_params s) (mklj (eps (m_lj_params s)) sg) (m_integrator s).

(** ** The values one iteration of a sampler loop computes from its three
    canonical draws [u1], [u2], [u3] *)

Definition unif_val (d : uniform_real_distribution) (u : R) : R :=
  u * (unif_b d - unif_a d) + unif_a d.

Definition cyl_vel0 (ur up : uniform_real_distribution) (u1 u2 : R) : vec3 :=
  let r := sqrt (unif_val ur u1) in
  let phi := unif_val up u2 in
  mkvec3 (- r * sin phi) 0 (r * cos phi).

Definition cyl_pos (ur up uy : uniform_real_distribution) (u1 u2 u3 : R) : vec3 :=
  let r := sqrt (unif_val ur u1) in
  let phi := unif_val up u2 in
  mkvec3 (r * cos phi) (unif_val uy u3) (r * sin phi).

Definition sph_pos (up uc uu : uniform_real_distribution) (u1 u2 u3 : R) : vec3 :=
  let r := sycl_pow (unif_val uu u1) (1 / 3) in
  let cost := unif_val uc u2 in
  let sint := sqrt (1 - cost * cost) in
  let phi := unif_val up u3 in
  mkvec3 (r * sint * cos phi) (r * sint * sin phi) (r * cost).

(** A body the cylinder loop can write: velocity and position built from
    three canonical draws in [0, 1]. *)
Definition cyl_body (params : distrib_cylinder) (ur up uy : uniform_real_distribution)
    (v p : vec3) : Prop :=
  exists u1 u2 u3, 0 <= u1 <= 1 /\ 0 <= u2 <= 1 /\ 0 <= u3 <= 1 /\
    v = vmul (cyl_vel0 ur up u1 u2) (speed params / snd (radius params)) /\
    p = cyl_pos ur up uy u1 u2 u3.

Definition sph_body (up uc uu : uniform_real_distribution) (v p : vec3) : Prop :=
  exists u1 u2 u3, 0 <= u1 <= 1 /\ 0 <= u2 <= 1 /\ 0 <= u3 <= 1 /\
    v = mkvec3 0 0 0 /\ p = sph_pos up uc uu u1 u2 u3.

(** ** The force models as spec 4.3 writes them

    Reference definitions to compare with [grav] and [lj_force]: a sum over
    [j = 0 .. n-1] of per-pair terms, with [HUGE] the self-exclusion
    constant of the code. *)

Definition vsum (l : list vec3) : vec3 := fold_right vadd (vec3_splat 0) l.

(** [|d|] *)
Definition spec_norm (d : vec3) : R := sqrt (vx d ^ 2 + vy d ^ 2 + vz d ^ 2).

Definition HUGE : R := HUGE_1e24.

(** [acc = G * sum_j (p_j - p_i) / (|p_j - p_i|^3 + damping + HUGE [j == i])] *)
Definition grav_spec (p : list vec3) (n i : nat) (G damping : R) : vec3 :=
  let p_i := nth i p (vec3_splat 0) in
  vscale G (vsum (map (fun j =>
    let d := vsub (nth j p (vec3_splat 0)) p_i in
    vdiv d (spec_norm d ^ 3 + damping + HUGE * indicator (j =? i)%nat))
    (seq 0 n))).

(** [A = 24 eps sigma], [r = |p_j - p_i| + HUGE [j == i]],
    [acc = A * sum_j (r^-8 - 2 r^-14) (p_j - p_i)] *)
Definition lj_spec (p : list vec3) (n i : nat) (eps sigma : R) : vec3 :=
  let A := 24 * eps * sigma in
  let p_i := nth i p (vec3_splat 0) in
  vscale A (vsum (map (fun j =>
    let d := vsub (nth j p (vec3_splat 0)) p_i in
    let r := spec_norm d + HUGE * indicator (j =? i)%nat in
    vscale (/ r ^ 8 - 2 * / r ^ 14) d)
    (seq 0 n))).

Definition zero_stream : rng := fun _ => 0.

(** What spec 8 asks of one body [(v, p)] written by the cylinder sampler:
    radial component in [[rmin, rmax]], height in [[height_min,
    height_max]], a tangential velocity (no vertical part, orthogonal to
    the radial direction) of magnitude [speed * r / rmax]. *)
Definition cylinder_sample_ok (params : distrib_cylinder) (v p : vec3) : Prop :=
  let radial := sqrt (vx p * vx p + vz p * vz p) in
  fst (radius params) <= radial <= snd (radius params) /\
  fst (height params) <= vy p <= snd (height params) /\
  vy v = 0 /\ vx v * vx p + vz v * vz p = 0 /\
  spec_norm v = speed params * radial / snd (radius params).

(** What spec 8 asks of one body written by the sphere sampler. *)
Definition sphere_sample_ok (params : distrib_sphere) (v p : vec3) : Prop :=
  fst (sph_radius params) <= spec_norm p <= snd (sph_radius params) /\
  v = mkvec3 0 0 0.

(** Radius range with a negative minimum. *)
Definition cyl_negative_rmin : distrib_cylinder := mkcyl ((-3), 2) (0, 0) (0, 0) 1.

(** Negative speed. *)
Definition cyl_negative_speed : distrib_cylinder := mkcyl (1, 2) (0, 0) (0, 0) (-1).

(** Cylinder parameters with the radius range reversed. *)
Definition cyl_reversed_radius : distrib_cylinder :=
  mkcyl (2, 1) (0, 1) (0, 1) 1.

(** Two streams that differ after the first three draws. *)
Definition stream_after_three : rng := fun k => if (k <? 3)%nat then 0 else 1.

Definition flip (b : Buffer) : Buffer :=
  match b with USE_A => USE_B | USE_B => USE_A end.

(** Demo-like cylinder parameters. *)
Definition cyl_demo : distrib_cylinder := mkcyl (1, 2) (0, 1) (0, 1) 1.

(** ** Engines reachable through the public interface *)

Inductive reachable : GravSim -> Prop :=
| reach_cylinder n params g : reachable (GravSim_cylinder n params g)
| reach_sphere n params g : reachable (GravSim_sphere n params g)
| reach_step s : reachable s -> reachable (step s)
| reach_force f s : reachable s -> reachable (set_force_type f s)
| reach_integrator it s : reachable s -> reachable (set_integrator it s)
| reach_damping d s : reachable s -> reachable (set_grav_damping d s)
| reach_G x s : reachable s -> reachable (set_grav_G x s)
| reach_eps e s : reachable s -> reachable (set_lj_eps e s)
| reach_sigma sg s : reachable s -> reachable (set_lj_sigma sg s).

(** Both generations hold [m_n_bodies] velocities and positions. *)
Definition well_shaped (s : GravSim) : Prop :=
  let n := m_n_bodies s in
  length (bvel (m_a (m_bufs s))) = n /\ length (bpos (m_a (m_bufs s))) = n /\
  length (bvel (m_b (m_bufs s))) = n /\ length (bpos (m_b (m_bufs s))) = n.


(** [integrate_step_euler] or [integrate_step_rk4], as the kernel selects. *)
Definition integrate_with (it : integrator_t) : force_fn -> R -> vec3 -> vec3 -> R ->
    vec3 * vec3 * R :=
  match it with
  | EULER => integrate_step_euler
  | RK4 => integrate_step_rk4
  end.

(** ** Game of life: [demos/game_of_life/sim.hpp], a client of [DoubleBuf] *)

Module game_of_life.

Inductive CellState := LIVE | DEAD.

Definition CellState_eqb (a b : CellState) : bool :=
  match a, b with
  | LIVE, LIVE | DEAD, DEAD => true
  | _, _ => false
  end.

(** The [cells] buffer of a [GameGrid], indexed by [id<2>(x, y)].  The
    [vels] and [img] buffers are not modelled. *)
Definition cells_t := nat -> nat -> CellState.

(** [std::tuple<size_t, size_t, CellState>] *)
Definition click := (nat * nat * CellState)%type.

Record GameOfLifeSim := mkGameOfLifeSim {
  m_width : nat;
  m_height : nat;
  m_game : DoubleBuf cells_t;
  m_clicks : list click
}.

(** [GameOfLifeSim(width, height)]: both grids are built from the same
    arguments; their buffers are created without host data, [init] stands
    for that initial content. *)
Definition GameOfLifeSim_ctor (width height : nat) (init : cells_t) : GameOfLifeSim :=
  mkGameOfLifeSim width height (DoubleBuf_ctor init) [].

(** [m_clicks.emplace_back(x, y, state)] *)
Definition add_click (x y : nat) (state : CellState) (s : GameOfLifeSim) : GameOfLifeSim :=
  mkGameOfLifeSim (m_width s) (m_height s) (m_game s) (m_clicks s ++ [(x, y, state)]).

(** Storing through the reference returned by [read()]. *)
Definition set_read {T} (db : DoubleBuf T) (x : T) : DoubleBuf T :=
  match buffer db with
  | USE_A => mkDoubleBuf USE_A x (m_b db)
  | USE_B => mkDoubleBuf USE_B (m_a db) x
  end.

(** [acc[sycl::id<2>(x, y)] = state] *)
Definition store_cell (x y : nat) (state : CellState) (acc : cells_t) : cells_t :=
  fun x' y' => if (x' =? x)%nat && (y' =? y)%nat then state else acc x' y'.

(** The loop [while (!m_clicks.empty()) { press = m_clicks.back();
    m_clicks.pop_back(); acc[...] = std::get<2>(press); }]; [from_back]
    lists the clicks in the order [back()] yields them. *)
Fixpoint pop_clicks (from_back : list click) (acc : cells_t) : cells_t :=
  match from_back with
  | [] => acc
  | (x, y, state) :: rest => pop_clicks rest (store_cell x y state acc)
  end.

Definition apply_clicks (clicks : list click) (acc : cells_t) : cells_t :=
  pop_clicks (rev clicks) acc.

(** [process_index]: [(ind + offset) % max_size] on [int]; the C++ [%]
    truncates toward zero, which is [Z.rem]. *)
Definition process_index (ind offset max_size : Z) : Z :=
  Z.rem (ind + offset) max_size.

(** [r[sycl::id<2>(x_ind, y_ind)]]: the [int] indices are converted to
    [size_t]; an index pair outside [range<2>(width, height)] lies outside
    the buffer, which is [None]. *)
Definition read_cell (r : cells_t) (width height : nat) (x_ind y_ind : Z)
    : option CellState :=
  if (0 <=? x_ind)%Z && (x_ind <? Z.of_nat width)%Z &&
     (0 <=? y_ind)%Z && (y_ind <? Z.of_nat height)%Z
  then Some (r (Z.to_nat x_ind) (Z.to_nat y_ind))
  else None.

(** The loops [for offset_j = 1 .. -1] and [for offset_i = -1 .. 1],
    skipping [(0, 0)]: the order in which [live[count++]] is filled. *)
Definition neighbour_offsets : list (Z * Z) :=
  flat_map (fun offset_j =>
    flat_map (fun offset_i =>
      if negb (offset_j =? 0)%Z || negb (offset_i =? 0)%Z
      then [(offset_i, offset_j)] else [])
      [(-1)%Z; 0%Z; 1%Z])
    [1%Z; 0%Z; (-1)%Z].

(** [live[count++] = r[id<2>(x_ind, y_ind)] == CellState::LIVE] for each
    offset; [None] when a read leaves the buffer. *)
Fixpoint read_live (r : cells_t) (width height x y : nat) (offs : list (Z * Z))
    : option (list bool) :=
  match offs with
  | [] => Some []
  | (offset_i, offset_j) :: rest =>
      let x_ind := process_index (Z.of_nat x) offset_i (Z.of_nat width) in
      let y_ind := process_index (Z.of_nat y) offset_j (Z.of_nat height) in
      match read_cell r width height x_ind y_ind, read_live r width height x y rest with
      | Some c, Some l => Some (CellState_eqb c LIVE :: l)
      | _, _ => None
      end
  end.

(** [for (i = 0; i < 8; i++) live_neighbours += live[i]] *)
Definition live_neighbours (live : list bool) : nat :=
  fold_left (fun n b => (n + Nat.b2n b)%nat) live 0%nat.

(** Conway's rules as the kernel writes them. *)
Definition new_state (cur : CellState) (live_neighbours : nat) : CellState :=
  match cur with
  | LIVE =>
      if (live_neighbours <? 2)%nat then DEAD
      else if (live_neighbours <? 4)%nat then LIVE
      else DEAD
  | DEAD => if (live_neighbours =? 3)%nat then LIVE else DEAD
  end.

(** The cell-state part of the kernel for the work item [(x, y)]. *)
Definition cell_step (r : cells_t) (width height x y : nat) : option CellState :=
  match read_live r width height x y neighbour_offsets with
  | Some live => Some (new_state (r x y) (live_neighbours live))
  | None => None
  end.

(** [parallel_for(range<2>(width, height), ...)] writing [w[item]]; the
    launch reads outside the buffer ([None]) as soon as one work item
    does.  [old] is the content of the write grid outside the range. *)
Definition kernel_cells (r old : cells_t) (width height : nat) : option cells_t :=
  if forallb (fun x => forallb (fun y =>
        match cell_step r width height x y with Some _ => true | None => false end)
        (seq 0 height)) (seq 0 width)
  then Some (fun x y =>
         if (x <? width)%nat && (y <? height)%nat then
           match cell_step r width height x y with Some c => c | None => old x y end
         else old x y)
  else None.

(** [internal_step()]: the clicks are applied to the read grid, the
    kernel computes the write grid from it, and the grids are swapped. *)
Definition internal_step (s : GameOfLifeSim) : option GameOfLifeSim :=
  let r := apply_clicks (m_clicks s) (read (m_game s)) in
  let game1 := set_read (m_game s) r in
  match kernel_cells r (write game1) (m_width s) (m_height s) with
  | Some w => Some (mkGameOfLifeSim (m_width s) (m_height s)
                      (swap (set_write game1 w)) [])
  | None => None
  end.

(** The cell a click on [(x, y)] is stored into. *)
Definition click_at (x y : nat) (c : click) : bool :=
  match c with (cx, cy, _) => (x =? cx)%nat && (y =? cy)%nat end.

(** The wrapped neighbour of [(x, y)] at [(offset_i, offset_j)] on the
    torus [Z/width x Z/height]. *)
Definition torus_live (r : cells_t) (width height x y : nat) (o : Z * Z) : bool :=
  let '(offset_i, offset_j) := o in
  CellState_eqb
    (r (Z.to_nat ((Z.of_nat x + offset_i) mod Z.of_nat width))
       (Z.to_nat ((Z.of_nat y + offset_j) mod Z.of_nat height)))
    LIVE.

End game_of_life.

(** * Properties *)

Ltac vec_ext := apply (f_equal3 mkvec3).

(** ** Vector algebra *)

Lemma vadd_assoc (a b c : vec3) : vadd (vadd a b) c = vadd a (vadd b c).
Proof. unfold vadd; cbn; vec_ext; ring. Qed.

Lemma vadd_splat0_l (a : vec3) : vadd (vec3_splat 0) a = a.
Proof. destruct a; unfold vadd; cbn; vec_ext; ring. Qed.

(** ** Double buffer *)

Lemma swap_buffer {T} (db : DoubleBuf T) : buffer (swap db) = flip (buffer db).
Proof. destruct db as [[] ? ?]; reflexivity. Qed.

Lemma set_write_buffer {T} (db : DoubleBuf T) (x : T) :
  buffer (set_write db x) = buffer db.
Proof. destruct db as [[] ? ?]; reflexivity. Qed.

Lemma read_swap_set_write {T} (db : DoubleBuf T) (x : T) :
  read (swap (set_write db x)) = x.
Proof. destruct db as [[] ? ?]; reflexivity. Qed.

Lemma read_member_swap {T} (db : DoubleBuf T) :
  read_member (swap db) = write_member db.
Proof. destruct db as [[] ? ?]; reflexivity. Qed.

Lemma write_member_swap {T} (db : DoubleBuf T) :
  write_member (swap db) = read_member db.
Proof. destruct db as [[] ? ?]; reflexivity. Qed.

(** C8: After construction [read()] and [write()] designate distinct
    members (in fact in every state); one [swap()] makes the previous
    write member (and its content) the read member and the previous read
    member the write target; two [swap()] calls restore the original
    assignment. *)
Theorem DoubleBuf_swap_roles :
  forall (T : Type) (mk : T) (db : DoubleBuf T),
    read_member (DoubleBuf_ctor mk) <> write_member (DoubleBuf_ctor mk) /\
    read_member db <> write_member db /\
    read_member (swap db) = write_member db /\
    read (swap db) = write db /\
    write_member (swap db) = read_member db /\
    write (swap db) = read db /\
    read_member (swap (swap db)) = read_member db /\
    write_member (swap (swap db)) = write_member db /\
    swap (swap db) = db.
Proof.
  intros T mk [[] a b]; cbn; repeat split; discriminate.
Qed.

(** ** Setters *)

(** C10: every setter changes only its own selection or parameter field:
    buffers (positions, velocities and role flag), number of bodies, time
    and every other field are left as they were. *)
Theorem setters_frame :
  forall (s : GravSim) (f : force_t) (it : integrator_t) (x : R),
    (let s' := set_force_type f s in
     m_force s' = f /\ m_bufs s' = m_bufs s /\ m_n_bodies s' = m_n_bodies s /\
     m_time s' = m_time s /\ m_grav_params s' = m_grav_params s /\
     m_lj_params s' = m_lj_params s /\ m_integrator s' = m_integrator s) /\
    (let s' := set_integrator it s in
     m_integrator s' = Some it /\ m_bufs s' = m_bufs s /\
     m_n_bodies s' = m_n_bodies s /\ m_time s' = m_time s /\
     m_force s' = m_force s /\ m_grav_params s' = m_grav_params s /\
     m_lj_params s' = m_lj_params s) /\
    (let s' := set_grav_damping x s in
     damping (m_grav_params s') = x /\ G (m_grav_params s') = G (m_grav_params s) /\
     m_bufs s' = m_bufs s /\ m_n_bodies s' = m_n_bodies s /\
     m_time s' = m_time s /\ m_force s' = m_force s /\
     m_lj_params s' = m_lj_params s /\ m_integrator s' = m_integrator s) /\
    (let s' := set_grav_G x s in
     G (m_grav_params s') = x /\
     damping (m_grav_params s') = damping (m_grav_params s) /\
     m_bufs s' = m_bufs s /\ m_n_bodies s' = m_n_bodies s /\
     m_time s' = m_time s /\ m_force s' = m_force s /\
     m_lj_params s' = m_lj_params s /\ m_integrator s' = m_integrator s) /\
    (let s' := set_lj_eps x s in
     eps (m_lj_params s') = x /\ sigma (m_lj_params s') = sigma (m_lj_params s) /\
     m_bufs s' = m_bufs s /\ m_n_bodies s' = m_n_bodies s /\
     m_time s' = m_time s /\ m_force s' = m_force s /\
     m_grav_params s' = m_grav_params s /\ m_integrator s' = m_integrator s) /\
    (let s' := set_lj_sigma x s in
     sigma (m_lj_params s') = x /\ eps (m_lj_params s') = eps (m_lj_params s) /\
     m_bufs s' = m_bufs s /\ m_n_bodies s' = m_n_bodies s /\
     m_time s' = m_time s /\ m_force s' = m_force s /\
     m_grav_params s' = m_grav_params s /\ m_integrator s' = m_integrator s).
Proof.
  intros s f it x; cbn; repeat split.
Qed.

(** ** Stepping *)

Lemma step_time (s : GravSim) : m_time (step s) = m_time s + STEP_SIZE.
Proof. reflexivity. Qed.

Lemma step_buffer (s : GravSim) :
  buffer (m_bufs (step s)) = flip (buffer (m_bufs s)).
Proof.
  unfold step, internal_step; cbn [m_bufs].
  rewrite swap_buffer, set_write_buffer; reflexivity.
Qed.

Lemma iter_step_time (k : nat) (s : GravSim) :
  m_time (Nat.iter k step s) = m_time s + INR k * STEP_SIZE.
Proof.
  induction k as [|k IH].
  - change (Nat.iter 0 step s) with s; cbn [INR]; ring.
  - change (Nat.iter (S k) step s) with (step (Nat.iter k step s)).
    rewrite step_time, IH, S_INR; ring.
Qed.

Lemma GravSim_cylinder_time n params g : m_time (GravSim_cylinder n params g) = 0.
Proof. reflexivity. Qed.

Lemma GravSim_sphere_time n params g : m_time (GravSim_sphere n params g) = 0.
Proof. reflexivity. Qed.

(** C9: one [step()] flips the buffer role flag exactly once (the member
    just written becomes the read member) and adds [STEP_SIZE] to the time;
    after [k] steps from either constructor the time is [k * STEP_SIZE],
    strictly increasing with [k]. *)
Theorem step_one_swap_fixed_time :
  (forall s : GravSim,
     buffer (m_bufs (step s)) = flip (buffer (m_bufs s)) /\
     read_member (m_bufs (step s)) = write_member (m_bufs s) /\
     write_member (m_bufs (step s)) = read_member (m_bufs s) /\
     m_time (step s) = m_time s + STEP_SIZE) /\
  (forall (n : nat) (pc : distrib_cylinder) (ps : distrib_sphere) (g : rng) (k : nat),
     m_time (Nat.iter k step (GravSim_cylinder n pc g)) = INR k * STEP_SIZE /\
     m_time (Nat.iter k step (GravSim_cylinder n pc g))
       < m_time (Nat.iter (S k) step (GravSim_cylinder n pc g)) /\
     m_time (Nat.iter k step (GravSim_sphere n ps g)) = INR k * STEP_SIZE /\
     m_time (Nat.iter k step (GravSim_sphere n ps g))
       < m_time (Nat.iter (S k) step (GravSim_sphere n ps g))).
Proof.
  split.
  - intros s. pose proof (step_buffer s) as Hb.
    unfold read_member, write_member. rewrite Hb.
    destruct (buffer (m_bufs s)); cbn; repeat split.
  - intros n pc ps g k.
    rewrite !iter_step_time, GravSim_cylinder_time, GravSim_sphere_time, S_INR.
    unfold STEP_SIZE; repeat split; [ring | lra | ring | lra].
Qed.

(** ** Euler integration *)

(** C3: the Euler integrator returns [v1 = v0 + dt f(v0,p0,t0)],
    [p1 = p0 + dt v1] (the new velocity) and [t1 = t0 + dt]; the kernel
    of [internal_step] stores [v1] and [p1] of the body's read-generation
    state at the body's index of the write generation and drops [t1]. *)
Theorem euler_semi_implicit :
  (forall (f : force_fn) (dt : R) (v0 p0 : vec3) (t0 : R),
     let v1 := vadd v0 (vscale dt (f v0 p0 t0)) in
     integrate_step_euler f dt v0 p0 t0 = (v1, vadd p0 (vscale dt v1), t0 + dt)) /\
  (forall (force : nat -> force_fn) (reads writes : SyclBufs) (t : R) (id : nat),
     let v0 := nth id (bvel reads) (vec3_splat 0) in
     let p0 := nth id (bpos reads) (vec3_splat 0) in
     let v1 := vadd v0 (vscale STEP_SIZE (force id v0 p0 t)) in
     bvel (kernel_body force (Some EULER) reads t id writes) = <[id:=v1]> (bvel writes) /\
     bpos (kernel_body force (Some EULER) reads t id writes)
       = <[id:=vadd p0 (vscale STEP_SIZE v1)]> (bpos writes)).
Proof.
  split.
  - intros; reflexivity.
  - intros; cbn; split; reflexivity.
Qed.

(** ** Construction performs no validation *)

Lemma cyl_loop_length params ur up uy cnt i g accs :
  length (bvel (fst (cyl_loop params ur up uy cnt i g accs))) = length (bvel accs) /\
  length (bpos (fst (cyl_loop params ur up uy cnt i g accs))) = length (bpos accs).
Proof.
  revert i g accs; induction cnt as [|c IH]; intros i g accs; [split; reflexivity|].
  cbn [cyl_loop unif_call draw].
  rewrite (proj1 (IH _ _ _)), (proj2 (IH _ _ _)).
  unfold set_pos, vel_mul_assign, set_vel; cbn.
  destruct (<[i:=_]> (bvel accs) !! i); cbn; rewrite ?length_insert; auto.
Qed.

Lemma sph_loop_length up uc uu cnt i g accs :
  length (bvel (fst (sph_loop up uc uu cnt i g accs))) = length (bvel accs) /\
  length (bpos (fst (sph_loop up uc uu cnt i g accs))) = length (bpos accs).
Proof.
  revert i g accs; induction cnt as [|c IH]; intros i g accs; [split; reflexivity|].
  cbn [sph_loop unif_call draw].
  rewrite (proj1 (IH _ _ _)), (proj2 (IH _ _ _)).
  unfold set_pos, set_vel; cbn; rewrite !length_insert; auto.
Qed.

Lemma GravSim_cylinder_shape n params g :
  let s := GravSim_cylinder n params g in
  m_n_bodies s = n /\ m_time s = 0 /\
  length (bvel (read (m_bufs s))) = n /\ length (bpos (read (m_bufs s))) = n.
Proof.
  cbn zeta. unfold GravSim_cylinder. cbn [m_bufs m_n_bodies m_time].
  rewrite read_swap_set_write.
  destruct (cyl_loop_length params
              (mkunif (fst (radius params) * fst (radius params))
                      (snd (radius params) * snd (radius params)))
              (mkunif (fst (angle params)) (snd (angle params)))
              (mkunif (fst (height params)) (snd (height params)))
              n 0 g (write (m_bufs (GravSim_base n)))) as [H1 H2].
  cbn [m_n_bodies GravSim_base] in *. rewrite H1, H2.
  cbn; rewrite !length_replicate; repeat split.
Qed.

Lemma GravSim_sphere_shape n params g :
  let s := GravSim_sphere n params g in
  m_n_bodies s = n /\ m_time s = 0 /\
  length (bvel (read (m_bufs s))) = n /\ length (bpos (read (m_bufs s))) = n.
Proof.
  cbn zeta. unfold GravSim_sphere. cbn [m_bufs m_n_bodies m_time].
  rewrite read_swap_set_write.
  rewrite (proj1 (sph_loop_length _ _ _ _ _ _ _)),
          (proj2 (sph_loop_length _ _ _ _ _ _ _)).
  cbn; rewrite !length_replicate; repeat split.
Qed.

(** C1 (counterexample): with [n_bodies = 0], and with a radius range whose
    minimum exceeds its maximum, the constructor returns an engine without
    reporting anything, and [step()] runs on it. *)
Lemma no_configuration_error_counterexample :
  m_n_bodies (GravSim_cylinder 0 cyl_reversed_radius zero_stream) = 0%nat /\
  m_time (step (GravSim_cylinder 0 cyl_reversed_radius zero_stream)) = STEP_SIZE /\
  m_n_bodies (GravSim_sphere 0 (mksph (1, 2)) zero_stream) = 0%nat /\
  length (bpos (read (m_bufs (GravSim_cylinder 1 cyl_reversed_radius zero_stream))))
    = 1%nat /\
  m_time (step (GravSim_cylinder 1 cyl_reversed_radius zero_stream)) = STEP_SIZE.
Proof.
  repeat split; try reflexivity;
    rewrite step_time, GravSim_cylinder_time; ring.
Qed.

(** C1 (amended): there is no ConfigurationError: both constructors accept
    every [n_bodies] (0 included) and every range (min > max included)
    without a check, and return an engine with [n_bodies] bodies and time 0
    on which [step()] runs; the setters take a scalar or a selection and
    are total. *)
Theorem constructors_unchecked :
  forall (n : nat) (pc : distrib_cylinder) (ps : distrib_sphere) (g : rng),
    (let s := GravSim_cylinder n pc g in
     m_n_bodies s = n /\ m_time s = 0 /\
     length (bvel (read (m_bufs s))) = n /\ length (bpos (read (m_bufs s))) = n /\
     m_n_bodies (step s) = n /\ m_time (step s) = STEP_SIZE) /\
    (let s := GravSim_sphere n ps g in
     m_n_bodies s = n /\ m_time s = 0 /\
     length (bvel (read (m_bufs s))) = n /\ length (bpos (read (m_bufs s))) = n /\
     m_n_bodies (step s) = n /\ m_time (step s) = STEP_SIZE).
Proof.
  intros n pc ps g; split; cbn zeta.
  - destruct (GravSim_cylinder_shape n pc g) as (H1 & H2 & H3 & H4).
    repeat split; auto. rewrite step_time, H2; unfold STEP_SIZE; ring.
  - destruct (GravSim_sphere_shape n ps g) as (H1 & H2 & H3 & H4).
    repeat split; auto. rewrite step_time, H2; unfold STEP_SIZE; ring.
Qed.

(** ** Determinism of the samplers *)

(** Each loop iteration consumes exactly three draws, so [cnt] iterations
    read only the first [3 * cnt] values of the stream. *)
Lemma cyl_loop_prefix params ur up uy cnt i (g1 g2 : rng) accs :
  (forall k, (k < 3 * cnt)%nat -> g1 k = g2 k) ->
  fst (cyl_loop params ur up uy cnt i g1 accs) = fst (cyl_loop params ur up uy cnt i g2 accs).
Proof.
  revert i g1 g2 accs; induction cnt as [|c IH]; intros i g1 g2 accs Hg;
    [reflexivity|].
  cbn [cyl_loop unif_call draw].
  rewrite (Hg 0%nat), (Hg 1%nat), (Hg 2%nat) by lia.
  apply IH; intros k Hk; apply Hg; lia.
Qed.

Lemma sph_loop_prefix up uc uu cnt i (g1 g2 : rng) accs :
  (forall k, (k < 3 * cnt)%nat -> g1 k = g2 k) ->
  fst (sph_loop up uc uu cnt i g1 accs) = fst (sph_loop up uc uu cnt i g2 accs).
Proof.
  revert i g1 g2 accs; induction cnt as [|c IH]; intros i g1 g2 accs Hg;
    [reflexivity|].
  cbn [sph_loop unif_call draw].
  rewrite (Hg 0%nat), (Hg 1%nat), (Hg 2%nat) by lia.
  apply IH; intros k Hk; apply Hg; lia.
Qed.

(** C2: the constructed engine (its position and velocity arrays in
    particular) is a function of [n], the parameters and the random
    stream alone: two streams that agree on the [3 n] draws the loop
    consumes give identical engines, for both samplers. *)
Theorem samplers_deterministic :
  forall (n : nat) (pc : distrib_cylinder) (ps : distrib_sphere) (g1 g2 : rng),
    (forall k, (k < 3 * n)%nat -> g1 k = g2 k) ->
    GravSim_cylinder n pc g1 = GravSim_cylinder n pc g2 /\
    GravSim_sphere n ps g1 = GravSim_sphere n ps g2.
Proof.
  intros n pc ps g1 g2 Hg; split.
  - unfold GravSim_cylinder; erewrite cyl_loop_prefix; [reflexivity|exact Hg].
  - unfold GravSim_sphere; erewrite sph_loop_prefix; [reflexivity|exact Hg].
Qed.

Lemma samplers_deterministic_witness :
  (forall k, (k < 3 * 1)%nat -> zero_stream k = stream_after_three k) /\
  GravSim_cylinder 1 cyl_reversed_radius zero_stream
    = GravSim_cylinder 1 cyl_reversed_radius stream_after_three /\
  GravSim_sphere 1 (mksph (1, 2)) zero_stream
    = GravSim_sphere 1 (mksph (1, 2)) stream_after_three.
Proof.
  assert (H : forall k, (k < 3 * 1)%nat -> zero_stream k = stream_after_three k).
  { intros k Hk; unfold zero_stream, stream_after_three.
    destruct (Nat.ltb_spec k 3); [reflexivity | lia]. }
  split; [exact H|].
  apply (samplers_deterministic 1 cyl_reversed_radius (mksph (1, 2))
           zero_stream stream_after_three H).
Defined.

(** ** Force models *)

Lemma norm_of_spec_norm (d : vec3) : norm_of d = spec_norm d.
Proof. unfold norm_of, spec_norm; f_equal; ring. Qed.

Lemma vsum_cons (a : vec3) (l : list vec3) : vsum (a :: l) = vadd a (vsum l).
Proof. reflexivity. Qed.

(** The accumulation loop of [grav] adds the per-pair terms of
    [i .. i + cnt - 1] to [acc]. *)
Lemma grav_loop_sum pos id damping x i cnt acc :
  grav_loop pos id damping x i cnt acc =
  vadd acc (vsum (map (fun j =>
    let diff := vsub (nth j pos (vec3_splat 0)) x in
    let r := norm_of diff in
    vdiv diff (r * r * r + HUGE_1e24 * indicator (j =? id)%nat + damping))
    (seq i cnt))).
Proof.
  revert i acc; induction cnt as [|c IH]; intros i acc.
  - destruct acc; cbn; unfold vadd; cbn; vec_ext; ring.
  - cbn [grav_loop seq map]. rewrite IH, vsum_cons, vadd_assoc. reflexivity.
Qed.

Lemma lj_loop_sum pos id x i cnt acc :
  lj_loop pos id x i cnt acc =
  vadd acc (vsum (map (fun j =>
    let diff := vsub (nth j pos (vec3_splat 0)) x in
    let r := norm_of diff + HUGE_1e24 * indicator (j =? id)%nat in
    vsub (vscale (sycl_pow r (-8)) diff) (vscale (2 * sycl_pow r (-14)) diff))
    (seq i cnt))).
Proof.
  revert i acc; induction cnt as [|c IH]; intros i acc.
  - destruct acc; cbn; unfold vadd; cbn; vec_ext; ring.
  - cbn [lj_loop seq map]. rewrite IH, vsum_cons, vadd_assoc. reflexivity.
Qed.

(** C4: the gravity closure of body [i], evaluated at the body's own
    position [p_i], is [G * sum_j (p_j - p_i) / (|p_j - p_i|^3 + damping
    + HUGE [j == i])] over [j = 0 .. n-1]. *)
Theorem gravity_force_formula :
  forall (gp : grav_params_t) (lp : lj_params_t) (p : list vec3) (n i : nat)
         (v : vec3) (t : R),
    select_force GRAVITY gp lp p n i v (nth i p (vec3_splat 0)) t
    = grav_spec p n i (G gp) (damping gp).
Proof.
  intros gp lp p n i v t. cbn [select_force]. unfold grav, grav_spec.
  rewrite grav_loop_sum, vadd_splat0_l. f_equal. f_equal.
  apply map_ext; intros j. cbn zeta. rewrite norm_of_spec_norm.
  unfold HUGE. f_equal. ring.
Qed.

(** On a non-negative base, [sycl_pow] with a negative integer exponent is
    the reciprocal of the power. *)
Lemma sycl_pow_neg (r : R) (k : positive) :
  0 <= r -> sycl_pow r (IZR (Zneg k)) = / r ^ Pos.to_nat k.
Proof.
  intros Hr. unfold sycl_pow. destruct (Rlt_dec 0 r) as [Hlt|Hnlt].
  - replace (IZR (Zneg k)) with (- INR (Pos.to_nat k))
      by (rewrite INR_IZR_INZ, positive_nat_Z; reflexivity).
    rewrite Rpower_Ropp, Rpower_pow; [reflexivity | exact Hlt].
  - assert (r = 0) as -> by lra.
    rewrite pow_i by lia. now rewrite Rinv_0.
Qed.

Lemma self_exclusion_nonneg (d : vec3) (b : bool) :
  0 <= norm_of d + HUGE_1e24 * indicator b.
Proof.
  pose proof (sqrt_pos (vx d * vx d + vy d * vy d + vz d * vz d)).
  assert (0 < HUGE_1e24) by (unfold HUGE_1e24; apply pow_lt; lra).
  unfold norm_of, indicator; destruct b; nra.
Qed.

(** C5: the Lennard-Jones closure of body [i], evaluated at the body's own
    position [p_i], is [A * sum_j (r^-8 - 2 r^-14) (p_j - p_i)] with
    [A = 24 eps sigma] and [r = |p_j - p_i| + HUGE [j == i]]. *)
Theorem lennard_jones_force_formula :
  forall (gp : grav_params_t) (lp : lj_params_t) (p : list vec3) (n i : nat)
         (v : vec3) (t : R),
    select_force LENNARD_JONES gp lp p n i v (nth i p (vec3_splat 0)) t
    = lj_spec p n i (eps lp) (sigma lp).
Proof.
  intros gp lp p n i v t. cbn [select_force]. unfold lj_force, lj_spec.
  rewrite lj_loop_sum, vadd_splat0_l. f_equal. f_equal.
  apply map_ext; intros j. cbn zeta.
  pose proof (self_exclusion_nonneg (vsub (nth j p (vec3_splat 0)) (nth i p (vec3_splat 0)))
                (j =? i)%nat) as Hr.
  rewrite (sycl_pow_neg _ 8 Hr), (sycl_pow_neg _ 14 Hr).
  change (Pos.to_nat 8) with 8%nat; change (Pos.to_nat 14) with 14%nat.
  rewrite norm_of_spec_norm. unfold HUGE, vsub, vscale; cbn.
  vec_ext; ring.
Qed.

(** ** Samplers: every index is written with a sampled body *)

Lemma cyl_loop_S params ur up uy c i (g : rng) accs :
  cyl_loop params ur up uy (S c) i g accs =
  cyl_loop params ur up uy c (S i) (fun k => g (S (S (S k))))
    (set_pos i (cyl_pos ur up uy (g 0%nat) (g 1%nat) (g 2%nat))
       (vel_mul_assign i (speed params / snd (radius params))
          (set_vel i (cyl_vel0 ur up (g 0%nat) (g 1%nat)) accs))).
Proof. reflexivity. Qed.

Lemma sph_loop_S up uc uu c i (g : rng) accs :
  sph_loop up uc uu (S c) i g accs =
  sph_loop up uc uu c (S i) (fun k => g (S (S (S k))))
    (set_pos i (sph_pos up uc uu (g 0%nat) (g 1%nat) (g 2%nat))
       (set_vel i (mkvec3 0 0 0) accs)).
Proof. reflexivity. Qed.

(** The writes of one iteration of the cylinder loop at index [i]. *)
Lemma cyl_writes i V kk P accs :
  (i < length (bvel accs))%nat -> (i < length (bpos accs))%nat ->
  let a := set_pos i P (vel_mul_assign i kk (set_vel i V accs)) in
  bvel a !! i = Some (vmul V kk) /\ bpos a !! i = Some P /\
  length (bvel a) = length (bvel accs) /\ length (bpos a) = length (bpos accs) /\
  (forall k, k <> i -> bvel a !! k = bvel accs !! k /\ bpos a !! k = bpos accs !! k).
Proof.
  intros Hv Hp; cbn zeta. unfold vel_mul_assign, set_vel, set_pos; cbn [bvel bpos].
  rewrite (list_lookup_insert_eq (bvel accs) i V Hv); cbn [bvel bpos].
  rewrite !length_insert. repeat split.
  - apply list_lookup_insert_eq; rewrite length_insert; exact Hv.
  - apply list_lookup_insert_eq; exact Hp.
  - rewrite !list_lookup_insert_ne by congruence; reflexivity.
  - rewrite !list_lookup_insert_ne by congruence; reflexivity.
Qed.

Lemma sph_writes i V P accs :
  (i < length (bvel accs))%nat -> (i < length (bpos accs))%nat ->
  let a := set_pos i P (set_vel i V accs) in
  bvel a !! i = Some V /\ bpos a !! i = Some P /\
  length (bvel a) = length (bvel accs) /\ length (bpos a) = length (bpos accs) /\
  (forall k, k <> i -> bvel a !! k = bvel accs !! k /\ bpos a !! k = bpos accs !! k).
Proof.
  intros Hv Hp; cbn zeta. unfold set_vel, set_pos; cbn [bvel bpos].
  rewrite !length_insert. repeat split.
  - apply list_lookup_insert_eq; exact Hv.
  - apply list_lookup_insert_eq; exact Hp.
  - rewrite !list_lookup_insert_ne by congruence; reflexivity.
  - rewrite !list_lookup_insert_ne by congruence; reflexivity.
Qed.

(** Later iterations do not touch the indices already written. *)
Lemma cyl_loop_frame params ur up uy cnt i g accs k :
  (k < i)%nat ->
  bvel (fst (cyl_loop params ur up uy cnt i g accs)) !! k = bvel accs !! k /\
  bpos (fst (cyl_loop params ur up uy cnt i g accs)) !! k = bpos accs !! k.
Proof.
  revert i g accs; induction cnt as [|c IH]; intros i g accs Hk; [split; reflexivity|].
  rewrite cyl_loop_S.
  destruct (IH (S i) (fun m => g (S (S (S m))))
              (set_pos i (cyl_pos ur up uy (g 0%nat) (g 1%nat) (g 2%nat))
                 (vel_mul_assign i (speed params / snd (radius params))
                    (set_vel i (cyl_vel0 ur up (g 0%nat) (g 1%nat)) accs)))
              ltac:(lia)) as [-> ->].
  unfold vel_mul_assign, set_vel, set_pos; cbn [bvel bpos].
  destruct (<[i:=_]> (bvel accs) !! i); cbn [bvel bpos];
    rewrite !list_lookup_insert_ne by lia; split; reflexivity.
Qed.

Lemma sph_loop_frame up uc uu cnt i g accs k :
  (k < i)%nat ->
  bvel (fst (sph_loop up uc uu cnt i g accs)) !! k = bvel accs !! k /\
  bpos (fst (sph_loop up uc uu cnt i g accs)) !! k = bpos accs !! k.
Proof.
  revert i g accs; induction cnt as [|c IH]; intros i g accs Hk; [split; reflexivity|].
  rewrite sph_loop_S.
  destruct (IH (S i) (fun m => g (S (S (S m))))
              (set_pos i (sph_pos up uc uu (g 0%nat) (g 1%nat) (g 2%nat))
                 (set_vel i (mkvec3 0 0 0) accs))
              ltac:(lia)) as [-> ->].
  unfold set_vel, set_pos; cbn [bvel bpos].
  rewrite !list_lookup_insert_ne by lia; split; reflexivity.
Qed.

Lemma cyl_loop_bodies params ur up uy cnt i (g : rng) accs :
  (forall m, 0 <= g m <= 1) ->
  (i + cnt <= length (bvel accs))%nat -> (i + cnt <= length (bpos accs))%nat ->
  forall k, (i <= k < i + cnt)%nat ->
  exists v p,
    bvel (fst (cyl_loop params ur up uy cnt i g accs)) !! k = Some v /\
    bpos (fst (cyl_loop params ur up uy cnt i g accs)) !! k = Some p /\
    cyl_body params ur up uy v p.
Proof.
  revert i g accs; induction cnt as [|c IH]; intros i g accs Hg Hv Hp k Hk; [lia|].
  rewrite cyl_loop_S.
  destruct (cyl_writes i (cyl_vel0 ur up (g 0%nat) (g 1%nat))
              (speed params / snd (radius params))
              (cyl_pos ur up uy (g 0%nat) (g 1%nat) (g 2%nat)) accs
              ltac:(lia) ltac:(lia)) as (Hwv & Hwp & Hlv & Hlp & _).
  destruct (Nat.eq_dec k i) as [->|Hne].
  - destruct (cyl_loop_frame params ur up uy c (S i) (fun m => g (S (S (S m))))
                (set_pos i (cyl_pos ur up uy (g 0%nat) (g 1%nat) (g 2%nat))
                   (vel_mul_assign i (speed params / snd (radius params))
                      (set_vel i (cyl_vel0 ur up (g 0%nat) (g 1%nat)) accs)))
                i ltac:(lia)) as [-> ->].
    eexists _, _; split; [exact Hwv|]; split; [exact Hwp|].
    exists (g 0%nat), (g 1%nat), (g 2%nat); repeat split; auto; apply Hg.
  - apply IH.
    + intros m; apply Hg.
    + rewrite Hlv; lia.
    + rewrite Hlp; lia.
    + lia.
Qed.

Lemma sph_loop_bodies up uc uu cnt i (g : rng) accs :
  (forall m, 0 <= g m <= 1) ->
  (i + cnt <= length (bvel accs))%nat -> (i + cnt <= length (bpos accs))%nat ->
  forall k, (i <= k < i + cnt)%nat ->
  exists v p,
    bvel (fst (sph_loop up uc uu cnt i g accs)) !! k = Some v /\
    bpos (fst (sph_loop up uc uu cnt i g accs)) !! k = Some p /\
    sph_body up uc uu v p.
Proof.
  revert i g accs; induction cnt as [|c IH]; intros i g accs Hg Hv Hp k Hk; [lia|].
  rewrite sph_loop_S.
  destruct (sph_writes i (mkvec3 0 0 0)
              (sph_pos up uc uu (g 0%nat) (g 1%nat) (g 2%nat)) accs
              ltac:(lia) ltac:(lia)) as (Hwv & Hwp & Hlv & Hlp & _).
  destruct (Nat.eq_dec k i) as [->|Hne].
  - destruct (sph_loop_frame up uc uu c (S i) (fun m => g (S (S (S m))))
                (set_pos i (sph_pos up uc uu (g 0%nat) (g 1%nat) (g 2%nat))
                   (set_vel i (mkvec3 0 0 0) accs))
                i ltac:(lia)) as [-> ->].
    eexists _, _; split; [exact Hwv|]; split; [exact Hwp|].
    exists (g 0%nat), (g 1%nat), (g 2%nat); repeat split; auto; apply Hg.
  - apply IH.
    + intros m; apply Hg.
    + rewrite Hlv; lia.
    + rewrite Hlp; lia.
    + lia.
Qed.

Lemma GravSim_cylinder_bodies n params (g : rng) :
  (forall m, 0 <= g m <= 1) ->
  forall k v p,
    bvel (read (m_bufs (GravSim_cylinder n params g))) !! k = Some v ->
    bpos (read (m_bufs (GravSim_cylinder n params g))) !! k = Some p ->
    cyl_body params
      (mkunif (fst (radius params) * fst (radius params))
              (snd (radius params) * snd (radius params)))
      (mkunif (fst (angle params)) (snd (angle params)))
      (mkunif (fst (height params)) (snd (height params))) v p.
Proof.
  intros Hg k v p Hv Hp.
  pose proof (lookup_lt_Some _ _ _ Hv) as Hk.
  rewrite (proj1 (proj2 (proj2 (GravSim_cylinder_shape n params g)))) in Hk.
  unfold GravSim_cylinder in Hv, Hp. cbn [m_bufs m_n_bodies GravSim_base] in Hv, Hp.
  rewrite read_swap_set_write in Hv, Hp.
  destruct (cyl_loop_bodies params
              (mkunif (fst (radius params) * fst (radius params))
                      (snd (radius params) * snd (radius params)))
              (mkunif (fst (angle params)) (snd (angle params)))
              (mkunif (fst (height params)) (snd (height params)))
              n 0 g (SyclBufs_ctor n) Hg) with (k := k)
    as (v' & p' & Hv' & Hp' & Hb).
  - cbn; rewrite length_replicate; lia.
  - cbn; rewrite length_replicate; lia.
  - lia.
  - cbn [write DoubleBuf_ctor buffer m_b] in Hv, Hp.
    rewrite Hv in Hv'; rewrite Hp in Hp'. injection Hv' as ->; injection Hp' as ->.
    exact Hb.
Qed.

Lemma GravSim_sphere_bodies n params (g : rng) :
  (forall m, 0 <= g m <= 1) ->
  forall k v p,
    bvel (read (m_bufs (GravSim_sphere n params g))) !! k = Some v ->
    bpos (read (m_bufs (GravSim_sphere n params g))) !! k = Some p ->
    sph_body (mkunif 0 (2 * PI_f)) (mkunif (-1) 1)
      (mkunif (fst (sph_radius params) * fst (sph_radius params) * fst (sph_radius params))
              (snd (sph_radius params) * snd (sph_radius params) * snd (sph_radius params)))
      v p.
Proof.
  intros Hg k v p Hv Hp.
  pose proof (lookup_lt_Some _ _ _ Hv) as Hk.
  rewrite (proj1 (proj2 (proj2 (GravSim_sphere_shape n params g)))) in Hk.
  unfold GravSim_sphere in Hv, Hp. cbn [m_bufs m_n_bodies GravSim_base] in Hv, Hp.
  rewrite read_swap_set_write in Hv, Hp.
  destruct (sph_loop_bodies (mkunif 0 (2 * PI_f)) (mkunif (-1) 1)
              (mkunif (fst (sph_radius params) * fst (sph_radius params) * fst (sph_radius params))
                      (snd (sph_radius params) * snd (sph_radius params) * snd (sph_radius params)))
              n 0 g (SyclBufs_ctor n) Hg) with (k := k)
    as (v' & p' & Hv' & Hp' & Hb).
  - cbn; rewrite length_replicate; lia.
  - cbn; rewrite length_replicate; lia.
  - lia.
  - cbn [write DoubleBuf_ctor buffer m_b] in Hv, Hp.
    rewrite Hv in Hv'; rewrite Hp in Hp'. injection Hv' as ->; injection Hp' as ->.
    exact Hb.
Qed.

(** ** Geometry of the sampled bodies *)

Lemma sin_cos_sq (phi : R) : sin phi * sin phi + cos phi * cos phi = 1.
Proof. pose proof (sin2_cos2 phi) as H; unfold Rsqr in H; exact H. Qed.

(** [sqrt] of the squared length of a vector [q (a, b)] with [a^2 + b^2 = 1]. *)
Lemma sqrt_scaled_unit (q a b : R) :
  0 <= q -> a * a + b * b = 1 -> sqrt (q * a * (q * a) + q * b * (q * b)) = q.
Proof.
  intros Hq Hab.
  replace (q * a * (q * a) + q * b * (q * b)) with (q * q * (a * a + b * b)) by ring.
  rewrite Hab, Rmult_1_r. apply sqrt_square; exact Hq.
Qed.

Lemma cyl_body_ok (params : distrib_cylinder) up (v p : vec3) :
  0 <= fst (radius params) -> fst (radius params) <= snd (radius params) ->
  0 < snd (radius params) -> fst (height params) <= snd (height params) ->
  0 <= speed params ->
  cyl_body params
    (mkunif (fst (radius params) * fst (radius params))
            (snd (radius params) * snd (radius params)))
    up (mkunif (fst (height params)) (snd (height params))) v p ->
  cylinder_sample_ok params v p.
Proof.
  destruct params as [[rmin rmax] ang [hmin hmax] sp]; cbn [fst snd radius height speed].
  intros H0 Hr Hmax Hh Hsp (u1 & u2 & u3 & Hu1 & Hu2 & Hu3 & -> & ->).
  unfold cylinder_sample_ok, cyl_vel0, cyl_pos, vmul, spec_norm;
    cbn [fst snd radius height speed vx vy vz unif_val unif_a unif_b].
  unfold unif_val; cbn [unif_a unif_b].
  set (w := u1 * (rmax * rmax - rmin * rmin) + rmin * rmin).
  set (phi := u2 * (unif_b up - unif_a up) + unif_a up).
  assert (Hsq : rmin * rmin <= rmax * rmax) by nra.
  assert (Hw : rmin * rmin <= w <= rmax * rmax).
  { unfold w; split; [|assert (u1 * (rmax * rmax - rmin * rmin)
                                <= 1 * (rmax * rmax - rmin * rmin)) by
                           (apply Rmult_le_compat_r; lra)];
      [assert (0 <= u1 * (rmax * rmax - rmin * rmin)) by
         (apply Rmult_le_pos; lra) |]; lra. }
  pose proof (sqrt_pos w) as Hr0.
  set (r := sqrt w) in *.
  assert (Hrad : sqrt (r * cos phi * (r * cos phi) + r * sin phi * (r * sin phi)) = r).
  { apply sqrt_scaled_unit; [exact Hr0|]. rewrite Rplus_comm; apply sin_cos_sq. }
  rewrite Hrad. repeat split.
  - rewrite <- (sqrt_square rmin H0). apply sqrt_le_1_alt; lra.
  - rewrite <- (sqrt_square rmax ltac:(lra)). apply sqrt_le_1_alt; lra.
  - nra.
  - nra.
  - ring.
  - ring.
  - assert (Hq : 0 <= r * (sp / rmax)).
    { apply Rmult_le_pos; [exact Hr0|]. apply Rle_mult_inv_pos; lra. }
    replace ((- r * sin phi * (sp / rmax)) ^ 2 + (0 * (sp / rmax)) ^ 2
             + (r * cos phi * (sp / rmax)) ^ 2)
      with (r * (sp / rmax) * (- sin phi) * (r * (sp / rmax) * (- sin phi))
            + r * (sp / rmax) * cos phi * (r * (sp / rmax) * cos phi)) by ring.
    rewrite sqrt_scaled_unit; [field; lra | exact Hq |].
    replace (- sin phi * - sin phi) with (sin phi * sin phi) by ring.
    apply sin_cos_sq.
Qed.

(** C6 (counterexample): [rmin <= rmax] and [height_min <= height_max] do
    not suffice.  With [rmin = -3 <= rmax = 2] the sampler draws [r^2] in
    the interval spanned by [9] and [4], and the first draw 0 gives
    [r = 3 > rmax]; and even with [0 <= rmin <= rmax] and [0 < rmax],
    [speed = -1] gives a body with velocity magnitude [1/2], not
    [speed * r / rmax = -1/2]. *)
Lemma cylinder_sampler_counterexample :
  ~ (forall (n : nat) (params : distrib_cylinder) (g : rng),
       (forall m, 0 <= g m <= 1) ->
       fst (radius params) <= snd (radius params) ->
       fst (height params) <= snd (height params) ->
       forall k v p,
         bvel (read (m_bufs (GravSim_cylinder n params g))) !! k = Some v ->
         bpos (read (m_bufs (GravSim_cylinder n params g))) !! k = Some p ->
         cylinder_sample_ok params v p) /\
  ~ (forall (n : nat) (params : distrib_cylinder) (g : rng),
       (forall m, 0 <= g m <= 1) ->
       0 <= fst (radius params) -> fst (radius params) <= snd (radius params) ->
       0 < snd (radius params) -> fst (height params) <= snd (height params) ->
       forall k v p,
         bvel (read (m_bufs (GravSim_cylinder n params g))) !! k = Some v ->
         bpos (read (m_bufs (GravSim_cylinder n params g))) !! k = Some p ->
         cylinder_sample_ok params v p).
Proof.
  assert (Hz : forall m, 0 <= zero_stream m <= 1) by (intros; unfold zero_stream; lra).
  split; intros H.
  - pose proof (H 1%nat cyl_negative_rmin zero_stream Hz ltac:(cbn; lra) ltac:(cbn; lra)
                  0%nat _ _ eq_refl eq_refl) as [[_ Hle] _].
    cbn [cyl_vel0 cyl_pos vx vy vz unif_val unif_a unif_b cyl_negative_rmin
         radius angle height fst snd] in Hle.
    unfold zero_stream in Hle.
    replace (0 * (0 - 0) + 0) with 0 in Hle by ring.
    replace (0 * (2 * 2 - -3 * -3) + -3 * -3) with (3 * 3) in Hle by ring.
    rewrite sqrt_square, cos_0, sin_0 in Hle by lra.
    replace (3 * 1 * (3 * 1) + 3 * 0 * (3 * 0)) with (3 * 3) in Hle by ring.
    rewrite sqrt_square in Hle by lra. lra.
  - pose proof (H 1%nat cyl_negative_speed zero_stream Hz ltac:(cbn; lra)
                  ltac:(cbn; lra) ltac:(cbn; lra) ltac:(cbn; lra)
                  0%nat _ _ eq_refl eq_refl) as (_ & _ & _ & _ & Hn).
    cbn [cyl_vel0 cyl_pos vx vy vz vmul unif_val unif_a unif_b cyl_negative_speed
         radius angle height speed fst snd spec_norm] in Hn.
    unfold spec_norm in Hn; cbn [vx vy vz vmul] in Hn.
    unfold zero_stream in Hn.
    replace (0 * (0 - 0) + 0) with 0 in Hn by ring.
    replace (0 * (2 * 2 - 1 * 1) + 1 * 1) with (1 * 1) in Hn by ring.
    rewrite sqrt_square, cos_0, sin_0 in Hn by lra.
    replace (1 * 1 * (1 * 1) + 1 * 0 * (1 * 0)) with (1 * 1) in Hn by ring.
    rewrite sqrt_square in Hn by lra.
    pose proof (sqrt_pos ((- (1) * 0 * (-1 / 2)) ^ 2 + (0 * (-1 / 2)) ^ 2
                          + (1 * 1 * (-1 / 2)) ^ 2)) as Hpos.
    lra.
Qed.

(** C6 (amended): for [0 <= rmin <= rmax], [0 < rmax],
    [height_min <= height_max] and [speed >= 0], every body the cylinder
    sampler writes has its radial component [sqrt(x^2 + z^2)] in
    [[rmin, rmax]], its height in [[height_min, height_max]], and a
    tangential velocity (no vertical part, orthogonal to the radial
    direction) of magnitude [speed * r / rmax]. *)
Theorem cylinder_sampler_bounds :
  forall (n : nat) (params : distrib_cylinder) (g : rng),
    (forall m, 0 <= g m <= 1) ->
    0 <= fst (radius params) -> fst (radius params) <= snd (radius params) ->
    0 < snd (radius params) -> fst (height params) <= snd (height params) ->
    0 <= speed params ->
    forall k v p,
      bvel (read (m_bufs (GravSim_cylinder n params g))) !! k = Some v ->
      bpos (read (m_bufs (GravSim_cylinder n params g))) !! k = Some p ->
      cylinder_sample_ok params v p.
Proof.
  intros n params g Hg H0 Hr Hmax Hh Hsp k v p Hv Hp.
  eapply cyl_body_ok; try eassumption.
  exact (GravSim_cylinder_bodies n params g Hg k v p Hv Hp).
Qed.

Lemma cylinder_sampler_bounds_witness :
  (forall m, 0 <= zero_stream m <= 1) /\
  cylinder_sample_ok cyl_demo
    (vmul (cyl_vel0 (mkunif (1 * 1) (2 * 2)) (mkunif 0 1) 0 0) (1 / 2))
    (cyl_pos (mkunif (1 * 1) (2 * 2)) (mkunif 0 1) (mkunif 0 1) 0 0 0).
Proof.
  assert (Hz : forall m, 0 <= zero_stream m <= 1) by (intros; unfold zero_stream; lra).
  split; [exact Hz|].
  apply (cylinder_sampler_bounds 1%nat cyl_demo zero_stream Hz
           ltac:(cbn; lra) ltac:(cbn; lra) ltac:(cbn; lra) ltac:(cbn; lra)
           ltac:(cbn; lra) 0%nat); reflexivity.
Defined.

(** [sycl::pow(w, 1/3)] is the real cube root of a non-negative [w]. *)
Lemma sycl_cbrt_cube (w : R) : 0 <= w -> 0 <= sycl_pow w (1 / 3) /\
  sycl_pow w (1 / 3) * sycl_pow w (1 / 3) * sycl_pow w (1 / 3) = w.
Proof.
  intros Hw. unfold sycl_pow. destruct (Rlt_dec 0 w) as [Hlt|Hnlt].
  - assert (Hpos : 0 < Rpower w (1 / 3)) by (unfold Rpower; apply exp_pos).
    split; [lra|].
    replace (Rpower w (1 / 3) * Rpower w (1 / 3) * Rpower w (1 / 3))
      with (Rpower w (1 / 3) ^ 3) by ring.
    rewrite <- (Rpower_pow 3 _ Hpos), Rpower_mult.
    replace (1 / 3 * INR 3) with 1 by (cbn; field).
    apply Rpower_1; exact Hlt.
  - split; lra.
Qed.

Lemma sycl_cbrt_bounds (a b w : R) :
  0 <= a -> a * a * a <= w <= b * b * b ->
  a <= sycl_pow w (1 / 3) <= b.
Proof.
  intros Ha Hw.
  assert (Hw0 : 0 <= w) by nra.
  destruct (sycl_cbrt_cube w Hw0) as [Hr Hc].
  set (r := sycl_pow w (1 / 3)) in *.
  split.
  - destruct (Rle_lt_dec a r) as [|Hlt]; [assumption|].
    assert (H1 : r * r <= a * a) by nra.
    assert (H2 : r * r * r <= a * a * r) by (apply Rmult_le_compat_r; lra).
    assert (H3 : a * a * r < a * a * a) by (apply Rmult_lt_compat_l; nra).
    lra.
  - destruct (Rle_lt_dec r b) as [|Hlt]; [assumption|].
    assert (Hb0 : 0 <= b).
    { destruct (Rle_lt_dec 0 b) as [|Hneg]; [assumption|].
      assert (b * b * b < 0).
      { assert (0 < b * b) by nra.
        replace 0 with (b * b * 0) by ring. apply Rmult_lt_compat_l; lra. }
      lra. }
    assert (H1 : b * b < r * r) by nra.
    assert (H2 : b * b * b <= b * b * r) by (apply Rmult_le_compat_l; nra).
    assert (H3 : b * b * r < r * r * r) by (apply Rmult_lt_compat_r; lra).
    lra.
Qed.

Lemma sph_body_ok (params : distrib_sphere) up (v p : vec3) :
  0 <= fst (sph_radius params) -> fst (sph_radius params) <= snd (sph_radius params) ->
  sph_body up (mkunif (-1) 1)
    (mkunif (fst (sph_radius params) * fst (sph_radius params) * fst (sph_radius params))
            (snd (sph_radius params) * snd (sph_radius params) * snd (sph_radius params)))
    v p ->
  sphere_sample_ok params v p.
Proof.
  destruct params as [[rmin rmax]]; cbn [fst snd sph_radius].
  intros H0 Hr (u1 & u2 & u3 & Hu1 & Hu2 & Hu3 & -> & ->).
  unfold sphere_sample_ok, sph_pos, spec_norm, unif_val;
    cbn [fst snd sph_radius vx vy vz unif_a unif_b].
  split; [|reflexivity].
  set (w := u1 * (rmax * rmax * rmax - rmin * rmin * rmin) + rmin * rmin * rmin).
  set (cost := u2 * (1 - -1) + -1).
  set (phi := u3 * (unif_b up - unif_a up) + unif_a up).
  assert (Hcube : rmin * rmin * rmin <= rmax * rmax * rmax).
  { assert (rmin * rmin <= rmax * rmax) by nra. nra. }
  assert (Hw : rmin * rmin * rmin <= w <= rmax * rmax * rmax).
  { unfold w; split;
      [assert (0 <= u1 * (rmax * rmax * rmax - rmin * rmin * rmin))
         by (apply Rmult_le_pos; lra)
      |assert (u1 * (rmax * rmax * rmax - rmin * rmin * rmin)
               <= 1 * (rmax * rmax * rmax - rmin * rmin * rmin))
         by (apply Rmult_le_compat_r; lra)]; lra. }
  pose proof (sycl_cbrt_bounds rmin rmax w H0 Hw) as Hb.
  assert (Hr0 : 0 <= sycl_pow w (1 / 3)) by lra.
  set (r := sycl_pow w (1 / 3)) in *.
  assert (Hc : -1 <= cost <= 1) by (unfold cost; lra).
  assert (Hs : sqrt (1 - cost * cost) * sqrt (1 - cost * cost) = 1 - cost * cost)
    by (apply sqrt_sqrt; nra).
  set (sint := sqrt (1 - cost * cost)) in *.
  replace ((r * sint * cos phi) ^ 2 + (r * sint * sin phi) ^ 2 + (r * cost) ^ 2)
    with (r * r * (sint * sint * (sin phi * sin phi + cos phi * cos phi) + cost * cost))
    by ring.
  rewrite sin_cos_sq, Hs.
  replace (r * r * ((1 - cost * cost) * 1 + cost * cost)) with (r * r) by ring.
  rewrite sqrt_square by exact Hr0. exact Hb.
Qed.

(** C7: for [0 <= rmin <= rmax], every body the sphere sampler writes has
    its position at distance [|p|] from the origin in [[rmin, rmax]] and a
    zero velocity. *)
Theorem sphere_sampler_bounds :
  forall (n : nat) (params : distrib_sphere) (g : rng),
    (forall m, 0 <= g m <= 1) ->
    0 <= fst (sph_radius params) -> fst (sph_radius params) <= snd (sph_radius params) ->
    forall k v p,
      bvel (read (m_bufs (GravSim_sphere n params g))) !! k = Some v ->
      bpos (read (m_bufs (GravSim_sphere n params g))) !! k = Some p ->
      sphere_sample_ok params v p.
Proof.
  intros n params g Hg H0 Hr k v p Hv Hp.
  eapply sph_body_ok; try eassumption.
  exact (GravSim_sphere_bodies n params g Hg k v p Hv Hp).
Qed.

Lemma sphere_sampler_bounds_witness :
  (forall m, 0 <= zero_stream m <= 1) /\
  sphere_sample_ok (mksph (1, 2)) (mkvec3 0 0 0)
    (sph_pos (mkunif 0 (2 * PI_f)) (mkunif (-1) 1) (mkunif (1 * 1 * 1) (2 * 2 * 2)) 0 0 0).
Proof.
  assert (Hz : forall m, 0 <= zero_stream m <= 1) by (intros; unfold zero_stream; lra).
  split; [exact Hz|].
  apply (sphere_sampler_bounds 1%nat (mksph (1, 2)) zero_stream Hz
           ltac:(cbn; lra) ltac:(cbn; lra) 0%nat); reflexivity.
Defined.

(** ** The step kernel, per body *)

Lemma kernel_body_Some force it reads t id w :
  kernel_body force (Some it) reads t id w =
  let r := integrate_with it (force id) STEP_SIZE (nth id (bvel reads) (vec3_splat 0))
             (nth id (bpos reads) (vec3_splat 0)) t in
  set_pos id (snd (fst r)) (set_vel id (fst (fst r)) w).
Proof.
  unfold kernel_body; destruct it; cbn [integrate_with].
  - destruct (integrate_step_euler _ _ _ _ _) as [[v1 p1] t1]; reflexivity.
  - destruct (integrate_step_rk4 _ _ _ _ _) as [[v1 p1] t1]; reflexivity.
Qed.

Lemma kernel_body_length force it reads t id w :
  length (bvel (kernel_body force it reads t id w)) = length (bvel w) /\
  length (bpos (kernel_body force it reads t id w)) = length (bpos w).
Proof.
  destruct it as [it|]; [|split; reflexivity].
  rewrite kernel_body_Some; cbn; rewrite !length_insert; split; reflexivity.
Qed.

Lemma parallel_for_length force it reads t n w :
  length (bvel (parallel_for n (kernel_body force it reads t) w)) = length (bvel w) /\
  length (bpos (parallel_for n (kernel_body force it reads t) w)) = length (bpos w).
Proof.
  induction n as [|k IH]; [split; reflexivity|].
  cbn [parallel_for].
  rewrite (proj1 (kernel_body_length _ _ _ _ _ _)),
          (proj2 (kernel_body_length _ _ _ _ _ _)).
  exact IH.
Qed.

Lemma parallel_for_lookup force it reads t n w id :
  (id < n)%nat -> (n <= length (bvel w))%nat -> (n <= length (bpos w))%nat ->
  let r := integrate_with it (force id) STEP_SIZE (nth id (bvel reads) (vec3_splat 0))
             (nth id (bpos reads) (vec3_splat 0)) t in
  bvel (parallel_for n (kernel_body force (Some it) reads t) w) !! id = Some (fst (fst r)) /\
  bpos (parallel_for n (kernel_body force (Some it) reads t) w) !! id = Some (snd (fst r)).
Proof.
  induction n as [|k IH]; intros Hid Hv Hp; [lia|]. cbn zeta.
  cbn [parallel_for]. rewrite kernel_body_Some. cbn zeta.
  destruct (parallel_for_length force (Some it) reads t k w) as [Lv Lp].
  unfold set_pos, set_vel; cbn [bvel bpos].
  destruct (Nat.eq_dec id k) as [->|Hne].
  - rewrite !list_lookup_insert_eq by lia. split; reflexivity.
  - rewrite !list_lookup_insert_ne by lia. apply IH; lia.
Qed.

Lemma well_shaped_read_write s :
  well_shaped s ->
  length (bvel (read (m_bufs s))) = m_n_bodies s /\
  length (bpos (read (m_bufs s))) = m_n_bodies s /\
  length (bvel (write (m_bufs s))) = m_n_bodies s /\
  length (bpos (write (m_bufs s))) = m_n_bodies s.
Proof.
  unfold well_shaped, read, write; destruct (m_bufs s) as [[] a b]; cbn; tauto.
Qed.

Lemma step_read_write s :
  read (m_bufs (step s)) =
    parallel_for (m_n_bodies s)
      (kernel_body (select_force (m_force s) (m_grav_params s) (m_lj_params s)
                      (bpos (read (m_bufs s))) (m_n_bodies s))
         (m_integrator s) (read (m_bufs s)) (m_time s))
      (write (m_bufs s)) /\
  write (m_bufs (step s)) = read (m_bufs s).
Proof.
  unfold step, internal_step; cbn [m_bufs].
  unfold read, write, swap, set_write; destruct (m_bufs s) as [[] a b]; cbn;
    split; reflexivity.
Qed.

(** X1: with an integrator selected, one step gives every body [id <
    n_bodies] of the new read generation the velocity and position the
    integrator computes from body [id] of the previous read generation
    and the force closure of [id]; the write generation must hold
    [n_bodies] bodies. *)
Theorem step_updates_every_body :
  forall (s : GravSim) (it : integrator_t) (id : nat),
    m_integrator s = Some it -> (id < m_n_bodies s)%nat -> well_shaped s ->
    let reads := read (m_bufs s) in
    let force := select_force (m_force s) (m_grav_params s) (m_lj_params s)
                   (bpos reads) (m_n_bodies s) in
    let r := integrate_with it (force id) STEP_SIZE (nth id (bvel reads) (vec3_splat 0))
               (nth id (bpos reads) (vec3_splat 0)) (m_time s) in
    bvel (read (m_bufs (step s))) !! id = Some (fst (fst r)) /\
    bpos (read (m_bufs (step s))) !! id = Some (snd (fst r)).
Proof.
  intros s it id Hit Hid Hws. cbn zeta.
  destruct (well_shaped_read_write s Hws) as (_ & _ & Hv & Hp).
  rewrite (proj1 (step_read_write s)), Hit.
  apply (parallel_for_lookup _ it _ _ (m_n_bodies s) _ id Hid); lia.
Qed.

Lemma step_updates_every_body_witness :
  let s := set_integrator EULER (GravSim_cylinder 1 cyl_demo zero_stream) in
  m_integrator s = Some EULER /\ (0 < m_n_bodies s)%nat /\ well_shaped s /\
  bvel (read (m_bufs (step s))) !! 0%nat =
    Some (fst (fst (integrate_with EULER
      (select_force (m_force s) (m_grav_params s) (m_lj_params s)
         (bpos (read (m_bufs s))) (m_n_bodies s) 0%nat) STEP_SIZE
      (nth 0 (bvel (read (m_bufs s))) (vec3_splat 0))
      (nth 0 (bpos (read (m_bufs s))) (vec3_splat 0)) (m_time s)))).
Proof.
  cbn zeta.
  assert (Hws : well_shaped (set_integrator EULER (GravSim_cylinder 1 cyl_demo zero_stream)))
    by (unfold well_shaped; vm_compute; repeat split).
  split; [reflexivity|]. split; [cbn; lia|]. split; [exact Hws|].
  assert (Hn : (0 < m_n_bodies (set_integrator EULER
                   (GravSim_cylinder 1 cyl_demo zero_stream)))%nat) by (cbn; lia).
  exact (proj1 (step_updates_every_body
    (set_integrator EULER (GravSim_cylinder 1 cyl_demo zero_stream)) EULER 0%nat
    eq_refl Hn Hws)).
Defined.

(** X2: a step never modifies the read generation: the generation the
    bodies were read from becomes, unchanged, the next write target. *)
Theorem step_keeps_read_generation :
  forall s : GravSim, write (m_bufs (step s)) = read (m_bufs s).
Proof. intros s. exact (proj2 (step_read_write s)). Qed.

(** X3: every engine built by a constructor and then changed by steps and
    setters holds [m_n_bodies] velocities and positions in both
    generations. *)
Theorem reachable_well_shaped :
  forall s : GravSim, reachable s -> well_shaped s.
Proof.
  intros s Hr; induction Hr.
  - unfold well_shaped, GravSim_cylinder; cbn.
    rewrite (proj1 (cyl_loop_length _ _ _ _ _ _ _ _)),
            (proj2 (cyl_loop_length _ _ _ _ _ _ _ _)).
    cbn; rewrite !length_replicate; repeat split.
  - unfold well_shaped, GravSim_sphere; cbn.
    rewrite (proj1 (sph_loop_length _ _ _ _ _ _ _)),
            (proj2 (sph_loop_length _ _ _ _ _ _ _)).
    cbn; rewrite !length_replicate; repeat split.
  - destruct (well_shaped_read_write s IHHr) as (Hrv & Hrp & Hwv & Hwp).
    destruct (step_read_write s) as [Hnr Hnw].
    destruct (parallel_for_length
                (select_force (m_force s) (m_grav_params s) (m_lj_params s)
                   (bpos (read (m_bufs s))) (m_n_bodies s))
                (m_integrator s) (read (m_bufs s)) (m_time s) (m_n_bodies s)
                (write (m_bufs s))) as [Lv Lp].
    rewrite <- Hnr in Lv, Lp.
    rewrite <- Hnw in Hrv, Hrp.
    change (m_n_bodies (step s)) with (m_n_bodies s).
    unfold well_shaped; cbn zeta. unfold read, write in *.
    destruct (m_bufs (step s)) as [[] a b]; cbn in *; lia.
  - exact IHHr.
  - exact IHHr.
  - exact IHHr.
  - exact IHHr.
  - exact IHHr.
  - exact IHHr.
Qed.

Lemma reachable_well_shaped_witness :
  reachable (step (GravSim_sphere 2 (mksph (1, 2)) zero_stream)) /\
  well_shaped (step (GravSim_sphere 2 (mksph (1, 2)) zero_stream)).
Proof.
  assert (H : reachable (step (GravSim_sphere 2 (mksph (1, 2)) zero_stream)))
    by (apply reach_step, reach_sphere).
  split; [exact H | apply reachable_well_shaped; exact H].
Defined.

(** ** Sums of the force closures *)







(** The [j = i] term of a sum vanishes: the sum runs over the other indices. *)
Lemma vsum_skip_self (f g : nat -> vec3) (i : nat) (l : list nat) :
  f i = vec3_splat 0 -> (forall j, j <> i -> f j = g j) ->
  vsum (map f l) = vsum (map g (List.filter (fun j => negb (j =? i)%nat) l)).
Proof.
  intros Hi Hj. induction l as [|a l IH]; [reflexivity|].
  cbn [map List.filter]. destruct (Nat.eqb_spec a i) as [->|Hne]; cbn [negb].
  - rewrite vsum_cons, Hi, vadd_splat0_l; exact IH.
  - rewrite !vsum_cons, (Hj a Hne), IH; reflexivity.
Qed.


Lemma vsub_self (a : vec3) : vsub a a = vec3_splat 0.
Proof. unfold vsub, vec3_splat; vec_ext; ring. Qed.

(** X4: the gravity closure of body [i], evaluated at [p_i], sums over the
    other bodies only: the self term [diff = 0] contributes the zero
    vector, and no other term carries the [1e24] offset. *)
Theorem gravity_sums_other_bodies :
  forall (gp : grav_params_t) (lp : lj_params_t) (p : list vec3) (n i : nat)
         (v : vec3) (t : R),
    select_force GRAVITY gp lp p n i v (nth i p (vec3_splat 0)) t =
    vscale (G gp) (vsum (map (fun j =>
      let diff := vsub (nth j p (vec3_splat 0)) (nth i p (vec3_splat 0)) in
      let r := norm_of diff in
      vdiv diff (r * r * r + damping gp))
      (List.filter (fun j => negb (j =? i)%nat) (seq 0 n)))).
Proof.
  intros gp lp p n i v t. cbn [select_force]. unfold grav.
  rewrite grav_loop_sum, vadd_splat0_l. f_equal.
  apply vsum_skip_self.
  - cbn zeta. rewrite vsub_self. unfold vdiv, vec3_splat; cbn; vec_ext; unfold Rdiv; ring.
  - intros j Hne. cbn zeta. apply Nat.eqb_neq in Hne. rewrite Hne.
    cbn [indicator]. f_equal. ring.
Qed.

(** X5: the Lennard-Jones closure of body [i], evaluated at [p_i], sums
    over the other bodies only, with [r = |p_j - p_i|]: the self term is
    the zero vector whatever its offset distance. *)
Theorem lennard_jones_sums_other_bodies :
  forall (gp : grav_params_t) (lp : lj_params_t) (p : list vec3) (n i : nat)
         (v : vec3) (t : R),
    select_force LENNARD_JONES gp lp p n i v (nth i p (vec3_splat 0)) t =
    vscale (24 * eps lp * sigma lp) (vsum (map (fun j =>
      let diff := vsub (nth j p (vec3_splat 0)) (nth i p (vec3_splat 0)) in
      let r := norm_of diff in
      vsub (vscale (sycl_pow r (-8)) diff) (vscale (2 * sycl_pow r (-14)) diff))
      (List.filter (fun j => negb (j =? i)%nat) (seq 0 n)))).
Proof.
  intros gp lp p n i v t. cbn [select_force]. unfold lj_force.
  rewrite lj_loop_sum, vadd_splat0_l. f_equal.
  apply vsum_skip_self.
  - cbn zeta. rewrite vsub_self. unfold vsub, vscale, vec3_splat; cbn; vec_ext; ring.
  - intros j Hne. cbn zeta. apply Nat.eqb_neq in Hne. rewrite Hne.
    cbn [indicator]. rewrite Rmult_0_r, Rplus_0_r. reflexivity.
Qed.


(** X7: the two members do not alias: storing through the reference
    [write()] returns leaves what [read()] returns unchanged, and storing
    through [read()] leaves [write()] unchanged; the value stored is the
    one read back. *)
Theorem DoubleBuf_stores_isolated :
  forall (T : Type) (db : DoubleBuf T) (x : T),
    read (set_write db x) = read db /\ write (set_write db x) = x /\
    write (game_of_life.set_read db x) = write db /\
    read (game_of_life.set_read db x) = x.
Proof.
  intros T [[] a b] x; repeat split.
Qed.

(** ** Game of life *)

Module game_of_life_facts.
Import game_of_life.

Lemma pop_clicks_app (l1 l2 : list click) (acc : cells_t) :
  pop_clicks (l1 ++ l2) acc = pop_clicks l2 (pop_clicks l1 acc).
Proof.
  revert acc; induction l1 as [|[[x y] st] l1 IH]; intros acc; [reflexivity|].
  cbn [app pop_clicks]. apply IH.
Qed.

Lemma apply_clicks_cons (c : click) (l : list click) (acc : cells_t) :
  apply_clicks (c :: l) acc =
  (let '(x, y, st) := c in store_cell x y st) (apply_clicks l acc).
Proof.
  unfold apply_clicks; cbn [rev]. rewrite pop_clicks_app.
  destruct c as [[x y] st]; reflexivity.
Qed.

(** X8: after the click loop of [internal_step], a cell holds the state
    of the earliest recorded click on it, and keeps its content when no
    click targets it; so a click added by [add_click] on a cell that
    already has a pending click has no effect. *)
Theorem clicks_earliest_wins :
  forall (clicks : list click) (acc : cells_t) (x y : nat),
    apply_clicks clicks acc x y =
      match find (click_at x y) clicks with
      | Some (_, _, st) => st
      | None => acc x y
      end /\
    (forall (s : GameOfLifeSim) (st : CellState),
       apply_clicks (m_clicks (add_click x y st s)) acc x y =
         match find (click_at x y) (m_clicks s) with
         | Some (_, _, st0) => st0
         | None => st
         end).
Proof.
  assert (Hcore : forall clicks acc x y,
    apply_clicks clicks acc x y =
      match find (click_at x y) clicks with
      | Some (_, _, st) => st
      | None => acc x y
      end).
  { induction clicks as [|[[cx cy] cst] l IH]; intros acc x y; [reflexivity|].
    rewrite apply_clicks_cons. unfold store_cell. cbn [find click_at].
    destruct ((x =? cx)%nat && (y =? cy)%nat); [reflexivity | apply IH]. }
  intros clicks acc x y. split; [apply Hcore|].
  intros s st. cbn [m_clicks add_click]. rewrite Hcore.
  induction (m_clicks s) as [|[[cx cy] cst] l IH]; cbn [app find click_at].
  - rewrite !Nat.eqb_refl; reflexivity.
  - destruct ((x =? cx)%nat && (y =? cy)%nat); [reflexivity | exact IH].
Qed.

(** X9: Conway's rules as the kernel writes them: the next state is live
    exactly when the cell has three live neighbours, or is live and has
    two. *)
Theorem conway_rule :
  forall (cur : CellState) (n : nat),
    new_state cur n = LIVE <-> (n = 3 \/ (cur = LIVE /\ n = 2))%nat.
Proof.
  intros cur n. destruct cur; destruct n as [|[|[|[|n]]]]; cbn;
    split; intros H; try discriminate; try lia; try tauto;
    destruct H as [H|[H1 H2]]; try discriminate; try lia.
Qed.

Lemma read_live_in_range (r : cells_t) (width height x y : nat) (offs : list (Z * Z)) :
  (1 <= x < width)%nat -> (1 <= y < height)%nat ->
  Forall (fun o => (-1 <= fst o)%Z /\ (-1 <= snd o)%Z) offs ->
  read_live r width height x y offs = Some (map (torus_live r width height x y) offs).
Proof.
  intros Hx Hy Hoffs. induction Hoffs as [|[oi oj] rest [Hi Hj] _ IH]; [reflexivity|].
  cbn [read_live map fst snd] in *. rewrite IH.
  unfold process_index, read_cell, torus_live.
  rewrite !Z.rem_mod_nonneg by lia.
  pose proof (Z.mod_pos_bound (Z.of_nat x + oi) (Z.of_nat width) ltac:(lia)).
  pose proof (Z.mod_pos_bound (Z.of_nat y + oj) (Z.of_nat height) ltac:(lia)).
  replace ((0 <=? (Z.of_nat x + oi) mod Z.of_nat width)%Z &&
           ((Z.of_nat x + oi) mod Z.of_nat width <? Z.of_nat width)%Z &&
           (0 <=? (Z.of_nat y + oj) mod Z.of_nat height)%Z &&
           ((Z.of_nat y + oj) mod Z.of_nat height <? Z.of_nat height)%Z) with true
    by (symmetry; repeat rewrite andb_true_iff; rewrite !Z.leb_le, !Z.ltb_lt; lia).
  reflexivity.
Qed.

Lemma live_neighbours_count (l : list bool) :
  live_neighbours l = length (List.filter (fun b => b) l).
Proof.
  unfold live_neighbours.
  assert (H : forall k, fold_left (fun n b => (n + Nat.b2n b)%nat) l k =
                        (k + length (List.filter (fun b => b) l))%nat).
  { induction l as [|b l IH]; intros k; cbn; [lia|].
    rewrite IH. destruct b; cbn; lia. }
  rewrite H; reflexivity.
Qed.

(** X10: away from the left and top borders ([1 <= x], [1 <= y]) the
    kernel reads its eight neighbours on the torus [Z/width x Z/height]
    (the right and bottom borders wrap to 0) and applies Conway's rules
    to the number of live ones. *)
Theorem cell_step_interior :
  forall (r : cells_t) (width height x y : nat),
    (1 <= x < width)%nat -> (1 <= y < height)%nat ->
    cell_step r width height x y =
      Some (new_state (r x y)
              (length (List.filter (torus_live r width height x y) neighbour_offsets))).
Proof.
  intros r width height x y Hx Hy. unfold cell_step.
  rewrite read_live_in_range by (auto; unfold neighbour_offsets; cbn;
    repeat constructor; cbn; lia).
  rewrite live_neighbours_count. f_equal. f_equal.
  induction neighbour_offsets as [|o l IH]; [reflexivity|].
  cbn [map List.filter]. destruct (torus_live r width height x y o); cbn; rewrite IH; reflexivity.
Qed.

Lemma cell_step_interior_witness :
  (1 <= 1 < 3)%nat /\ (1 <= 2 < 3)%nat /\
  cell_step (fun x _ => if (x =? 2)%nat then LIVE else DEAD) 3 3 1 2 =
    Some (new_state DEAD
      (length (List.filter (torus_live (fun x _ => if (x =? 2)%nat then LIVE else DEAD) 3 3 1 2)
                           neighbour_offsets))).
Proof.
  split; [lia|]. split; [lia|].
  apply (cell_step_interior (fun x _ => if (x =? 2)%nat then LIVE else DEAD) 3 3 1 2); lia.
Defined.

Lemma read_live_out (r : cells_t) (width height x y : nat) (offs : list (Z * Z))
    (oi oj : Z) :
  In (oi, oj) offs ->
  read_cell r width height (process_index (Z.of_nat x) oi (Z.of_nat width))
    (process_index (Z.of_nat y) oj (Z.of_nat height)) = None ->
  read_live r width height x y offs = None.
Proof.
  intros Hin Hnone. induction offs as [|[a b] rest IH]; [destruct Hin|].
  cbn [read_live]. destruct Hin as [Heq|Hin].
  - injection Heq as -> ->. rewrite Hnone; reflexivity.
  - rewrite (IH Hin).
    destruct (read_cell r width height (process_index (Z.of_nat x) a (Z.of_nat width))
                (process_index (Z.of_nat y) b (Z.of_nat height))); reflexivity.
Qed.

Lemma rem_minus_one (m : Z) : (2 <= m)%Z -> Z.rem (-1) m = (-1)%Z.
Proof.
  intros Hm. pose proof (Z.rem_opp_l 1 m ltac:(lia)) as H.
  rewrite (Z.rem_small 1 m) in H by lia. exact H.
Qed.

(** X11: [process_index] does not wrap at the left and top borders: on a
    grid wider (or taller) than one cell, [(0 + -1) % width] is [-1], so
    the work item [(0, 0)] reads outside the buffer and no
    [internal_step] stays within the grid. *)
Theorem step_reads_outside_grid :
  forall s : GameOfLifeSim,
    ((2 <= m_width s /\ 1 <= m_height s) \/ (1 <= m_width s /\ 2 <= m_height s))%nat ->
    cell_step (apply_clicks (m_clicks s) (read (m_game s))) (m_width s) (m_height s) 0 0
      = None /\
    internal_step s = None.
Proof.
  intros s Hdim.
  assert (Hc : forall r : cells_t, cell_step r (m_width s) (m_height s) 0 0 = None).
  { intros r. unfold cell_step.
    destruct Hdim as [[Hw Hh]|[Hw Hh]].
    - rewrite (read_live_out r (m_width s) (m_height s) 0 0 neighbour_offsets (-1) 1)
        by first [cbn; tauto | unfold process_index, read_cell;
            change (Z.of_nat 0 + -1)%Z with (-1)%Z;
            rewrite (rem_minus_one (Z.of_nat (m_width s))) by lia; reflexivity].
      reflexivity.
    - rewrite (read_live_out r (m_width s) (m_height s) 0 0 neighbour_offsets 0 (-1))
        by first [cbn; tauto | unfold process_index, read_cell;
            change (Z.of_nat 0 + -1)%Z with (-1)%Z;
            rewrite (rem_minus_one (Z.of_nat (m_height s))) by lia;
            change ((0 <=? -1)%Z) with false; rewrite andb_false_r; reflexivity].
      reflexivity. }
  split; [apply Hc|].
  unfold internal_step, kernel_cells.
  destruct (m_width s) as [|w] eqn:Ew; [lia|].
  destruct (m_height s) as [|h] eqn:Eh; [lia|].
  cbn [seq forallb]. rewrite Hc. reflexivity.
Qed.

Lemma step_reads_outside_grid_witness :
  ((2 <= m_width (GameOfLifeSim_ctor 4 3 (fun _ _ => DEAD)) /\
    1 <= m_height (GameOfLifeSim_ctor 4 3 (fun _ _ => DEAD))) \/
   (1 <= m_width (GameOfLifeSim_ctor 4 3 (fun _ _ => DEAD)) /\
    2 <= m_height (GameOfLifeSim_ctor 4 3 (fun _ _ => DEAD))))%nat /\
  internal_step (GameOfLifeSim_ctor 4 3 (fun _ _ => DEAD)) = None.
Proof.
  assert (H : ((2 <= m_width (GameOfLifeSim_ctor 4 3 (fun _ _ => DEAD)) /\
                1 <= m_height (GameOfLifeSim_ctor 4 3 (fun _ _ => DEAD))) \/
               (1 <= m_width (GameOfLifeSim_ctor 4 3 (fun _ _ => DEAD)) /\
                2 <= m_height (GameOfLifeSim_ctor 4 3 (fun _ _ => DEAD))))%nat)
    by (left; cbn; lia).
  split; [exact H | exact (proj2 (step_reads_outside_grid _ H))].
Defined.

(** X12: a step that stays within the grid consumes every recorded click,
    keeps the dimensions, and leaves as the next write target the grid the
    clicks were applied to; the new read grid holds, at every cell of the
    range, the state the kernel computed for it. *)
Theorem step_consumes_clicks :
  forall s s' : GameOfLifeSim,
    internal_step s = Some s' ->
    let r := apply_clicks (m_clicks s) (read (m_game s)) in
    m_clicks s' = [] /\ m_width s' = m_width s /\ m_height s' = m_height s /\
    write (m_game s') = r /\
    (forall x y, (x < m_width s)%nat -> (y < m_height s)%nat ->
       cell_step r (m_width s) (m_height s) x y = Some (read (m_game s') x y)).
Proof.
  intros s s' Hs. cbn zeta. unfold internal_step, kernel_cells in Hs.
  set (r := apply_clicks (m_clicks s) (read (m_game s))) in *.
  destruct (forallb _ (seq 0 (m_width s))) eqn:Hall; [|discriminate].
  injection Hs as <-. cbn [m_clicks m_width m_height m_game].
  assert (Hrw : forall T (db : DoubleBuf T) (a b : T),
            write (swap (set_write (set_read db a) b)) = a /\
            read (swap (set_write (set_read db a) b)) = b)
    by (intros T [[] ? ?] a b; split; reflexivity).
  rewrite (proj1 (Hrw _ _ _ _)).
  repeat split. intros x y Hx Hy. rewrite (proj2 (Hrw _ _ _ _)).
  rewrite forallb_forall in Hall.
  assert (Hx' : In x (seq 0 (m_width s))) by (apply in_seq; lia).
  assert (Hy' : In y (seq 0 (m_height s))) by (apply in_seq; lia).
  specialize (Hall x Hx'). rewrite forallb_forall in Hall. specialize (Hall y Hy').
  replace ((x <? m_width s)%nat && (y <? m_height s)%nat) with true
    by (symmetry; apply andb_true_iff; rewrite !Nat.ltb_lt; lia).
  destruct (cell_step r (m_width s) (m_height s) x y); [reflexivity | discriminate].
Qed.

Lemma step_consumes_clicks_witness :
  let s := add_click 0 0 LIVE (GameOfLifeSim_ctor 1 1 (fun _ _ => DEAD)) in
  exists s', internal_step s = Some s' /\ m_clicks s' = [] /\
             write (m_game s') = apply_clicks (m_clicks s) (read (m_game s)).
Proof.
  cbn zeta.
  assert (E0 : exists s', internal_step (add_click 0 0 LIVE
            (GameOfLifeSim_ctor 1 1 (fun _ _ => DEAD))) = Some s')
    by (eexists; reflexivity).
  destruct E0 as [s' E]. exists s'. destruct (step_consumes_clicks _ s' E) as (H1 & _ & _ & H4 & _).
  split; [exact E|]. split; [exact H1 | exact H4].
Defined.

End game_of_life_facts.
